(** * Phi functions of exponential integrators (beta/phi_functions.py)

    A shallow embedding of the module: the two gamma helpers, the three
    phi formulas ([_phi], [phi], [phi_mpmath_series]), the Runge-Kutta
    coefficient [calculate_gamma] and the memoising evaluator class [Phi].

    Python integers are [Z].  Every other number the module touches (a
    float, a torch tensor, an mpmath [mpf]) is a value of one dynamic
    universe [V] whose operators are the fields of the interface
    [Numeric]: the module is duck-typed over exactly these operators, and
    torch, math and mpmath are not part of it.  An operator may raise, so
    it returns a [result].  The control flow of the module is proved for
    every implementation of the interface.  Three implementations follow:
    [Ideal.pynum], exact reals of the four Python types, for the values the
    formulas return where nothing overflows; [Binary64.num], IEEE binary64
    numbers, for what a zero denominator does; and [Ranged.rnum], Python
    ints and floats with the range of a float, for what [phi] and
    [_incomplete_gamma] return and where they raise OverflowError. *)

From Stdlib Require Import ZArith List Reals Lra Lia Factorial.
From Stdlib Require Import Floats.
From stdpp Require Import base option list gmap.

Local Open Scope Z_scope.

(** ** Exceptions and results *)

(** The exceptions a call of the module can end with.  [NonFinite] is not a
    Python exception: it marks an IEEE infinity or NaN produced by a torch
    operation, which an exact-real implementation of [Numeric] cannot hold. *)
Inductive exn : Set :=
  | AssertionError
  | IndexError
  | ValueError
  | ZeroDivisionError
  | OverflowError
  | TypeError
  | AttributeError
  | NonFinite.

Inductive result (A : Type) : Type :=
  | Ok (a : A)
  | Raise (e : exn).
Arguments Ok {A} a.
Arguments Raise {A} e.

#[global] Instance result_ret : MRet result := fun _ a => Ok a.
#[global] Instance result_bind : MBind result :=
  fun _ _ f m => match m with Ok a => f a | Raise e => Raise e end.

(** [for k in l: s = body(s, k)], stopping at the first exception. *)
Fixpoint for_in {A S : Type} (l : list A) (body : S -> A -> result S) (s : S)
  : result S :=
  match l with
  | [] => Ok s
  | k :: l' => s' ← body s k; for_in l' body s'
  end.

(** [range(n)]: 0, 1, ..., n-1, empty when [n <= 0]. *)
Definition range (n : Z) : list Z := seqZ 0 n.

(** [math.factorial(n)]: [ValueError] on a negative argument. *)
Definition math_factorial (n : Z) : result Z :=
  if n <? 0 then Raise ValueError else Ok (Z.of_nat (fact (Z.to_nat n))).

(** [l[k]] on a Python sequence: a negative index counts from the end, an
    index outside [-len, len) raises [IndexError]. *)
Definition getitem {A : Type} (l : list A) (k : Z) : result A :=
  let n := Z.of_nat (length l) in
  let k' := if k <? 0 then k + n else k in
  if (k' <? 0) || (n <=? k') then Raise IndexError
  else match l !! Z.to_nat k' with
       | Some a => Ok a
       | None => Raise IndexError
       end.

(** ** The numeric interface *)

(** The arithmetic operators of Python on the values of [V]. *)
Class Arith (V : Type) := {
  from_int : Z -> V;                     (* an int operand, e.g. a literal *)
  neg : V -> result V;                   (* -x *)
  add : V -> V -> result V;              (* x + y *)
  sub : V -> V -> result V;              (* x - y *)
  mul : V -> V -> result V;              (* x * y *)
  truediv : V -> V -> result V;          (* x / y *)
  pow : V -> Z -> result V;              (* x ** k, k an int *)
}.

(** What the module calls besides: comparison with 0, the type test of
    [Phi.__call__], [float], and the functions of math, torch and mpmath. *)
Class Numeric (V : Type) := {
  #[global] numeric_arith :: Arith V;
  eq_zero : V -> result bool;            (* the truth value of x == 0 *)
  is_float_or_tensor : V -> bool;        (* type(x) in {float, torch.Tensor} *)
  float_ : V -> result V;                (* float(x) *)
  math_exp : V -> result V;              (* math.exp(x) *)
  torch_zeros_like : V -> result V;      (* torch.zeros_like(x) *)
  tensor_exp : V -> result V;            (* x.exp() *)
  mpf : V -> result V;                   (* mpmath.mpf(x) *)
  mp_exp : V -> result V;                (* mpmath.exp(x) *)
  mp_factorial : Z -> result V;          (* mpmath.factorial(k) *)
}.

(** ** The Runge-Kutta coefficient *)

Section Coefficient.
Context {V : Type} `{!Arith V}.

(** (3*(c3**3) - 2*c3) / (c2*(2 - 3*c2)): numerator first, then the
    denominator, then the division, as Python evaluates it. *)
Definition calculate_gamma (c2 c3 : V) : result V :=
  p ← pow c3 3;
  a ← mul (from_int 3) p;
  b ← mul (from_int 2) c3;
  num ← sub a b;
  t ← mul (from_int 3) c2;
  u ← sub (from_int 2) t;
  den ← mul c2 u;
  truediv num den.

End Coefficient.

(** ** The formulas *)

Section Formulas.
Context {V : Type} `{!Numeric V}.

(** Remainder solution. *)
Definition _phi (j : Z) (neg_h : V) : result V :=
  remainder ← torch_zeros_like neg_h;
  remainder ← for_in (range j) (fun remainder k =>
      p ← pow neg_h k;
      f ← math_factorial k;
      q ← truediv p (from_int f);
      add remainder q) remainder;
  e ← tensor_exp neg_h;
  d ← sub e remainder;
  p ← pow neg_h j;
  truediv d p.

(** Gamma(n) = (n-1)! for a positive integer n. *)
Definition _gamma (n : Z) : result Z := math_factorial (n - 1).

(** Gamma(s, x) = (s-1)! * sum_{k=0..s-1} x^k/k! * e^(-x). *)
Definition _incomplete_gamma (s : Z) (x : V) (gamma_s : option Z) : result V :=
  gamma_s ← match gamma_s with
            | None => _gamma s
            | Some g => Ok g
            end;
  sum_ ← for_in (range s) (fun sum_ k =>
      numerator ← pow x k;
      denom ← math_factorial k;
      quotient ← truediv numerator (from_int denom);
      add sum_ quotient) (from_int 0);
  nx ← neg x;
  e ← math_exp nx;
  t ← mul sum_ e;
  mul t (from_int gamma_s).

Definition phi (j : Z) (neg_h : V) : result V :=
  if j >? 0 then
    gamma_ ← _gamma j;
    incomp_gamma_ ← _incomplete_gamma j neg_h (Some gamma_);
    e ← math_exp neg_h;
    p ← pow neg_h (- j);
    ep ← mul e p;
    q ← truediv incomp_gamma_ (from_int gamma_);
    r ← sub (from_int 1) q;
    mul ep r
  else Raise AssertionError.

(** Arbitrary-precision phi_j(-h) by the remainder series. *)
Definition phi_mpmath_series (j : Z) (neg_h : V) : result V :=
  f ← float_ neg_h;
  z ← mpf f;
  S ← mpf (from_int 0);
  S ← for_in (range j) (fun S k =>
      p ← pow z k;
      f ← mp_factorial k;
      q ← truediv p f;
      add S q) S;
  e ← mp_exp z;
  d ← sub e S;
  p ← pow z j;
  phi_val ← truediv d p;
  float_ phi_val.

End Formulas.

(** ** The evaluator: class Phi *)

Module Phi.
Section Evaluator.
Context {V : Type} `{!Numeric V}.

(** The function [__init__] stores in [self.phi_f]. *)
Inductive impl : Set :=
  | use_phi                  (* self.phi_f = phi *)
  | use_phi_mpmath_series.   (* self.phi_f = phi_mpmath_series *)

Definition call (f : impl) (j : Z) (x : V) : result V :=
  match f with
  | use_phi => phi j x
  | use_phi_mpmath_series => phi_mpmath_series j x
  end.

(** The attributes of an instance; [cache] is the dict keyed by [(j, i)]. *)
Record t : Type := Self {
  h : V;
  c : list V;
  cache : gmap (Z * Z) V;
  phi_f : impl;
}.

(** [self.cache[key] = v] *)
Definition store (self : t) (key : Z * Z) (v : V) : t :=
  {| h := h self; c := c self; cache := <[key := v]> (cache self);
     phi_f := phi_f self |}.

Definition __init__ (h0 : V) (c0 : list V) (analytic_solution : bool)
  : result t :=
  if analytic_solution then
    hf ← float_ h0;
    h' ← mpf hf;
    c' ← mapM mpf c0;
    Ok {| h := h'; c := c'; cache := ∅; phi_f := use_phi_mpmath_series |}
  else
    Ok {| h := h0; c := c0; cache := ∅; phi_f := use_phi |}.

(** What one call leaves behind: the value returned or the exception
    raised, the instance afterwards, and (a probe, not program state) the
    arguments of every call of [self.phi_f] it made. *)
Record outcome : Type := Outcome {
  ret : result V;
  post : t;
  probe : list (Z * V);
}.

(** Lines 122-129 of the source: the value for coefficient [c_], then the
    store into the cache.  An exception leaves [self] as it was. *)
Definition call_tail (self : t) (j i : Z) (c_ : V) : outcome :=
  if (j =? 0) && is_float_or_tensor c_ then
    match (nh ← neg (h self); x ← mul nh c_; f ← float_ x; math_exp f) with
    | Ok result => Outcome (Ok result) (store self (j, i) result) []
    | Raise e => Outcome (Raise e) self []
    end
  else
    match (nh ← neg (h self); mul nh c_) with
    | Ok x =>
        match call (phi_f self) j x with
        | Ok result => Outcome (Ok result) (store self (j, i) result) [(j, x)]
        | Raise e => Outcome (Raise e) self [(j, x)]
        end
    | Raise e => Outcome (Raise e) self []
    end.

Definition __call__ (self : t) (j i : Z) : outcome :=
  match cache self !! (j, i) with
  | Some v => Outcome (Ok v) self []
  | None =>
      if i <? 0 then call_tail self j i (from_int 1)
      else
        match getitem (c self) (i - 1) with
        | Raise e => Outcome (Raise e) self []
        | Ok c_ =>
            match eq_zero c_ with
            | Raise e => Outcome (Raise e) self []
            | Ok true =>
                Outcome (Ok (from_int 0)) (store self (j, i) (from_int 0)) []
            | Ok false => call_tail self j i c_
            end
        end
  end.

(** The instances a program can hold: built by [__init__], then used
    through [__call__] only. *)
Inductive reachable : t -> Prop :=
  | reachable_init h0 c0 analytic_solution self :
      __init__ h0 c0 analytic_solution = Ok self -> reachable self
  | reachable_call self j i :
      reachable self -> reachable (post (__call__ self j i)).

(** The same instance with an empty cache. *)
Definition forget (self : t) : t :=
  {| h := h self; c := c self; cache := ∅; phi_f := phi_f self |}.

(** Every cached value is what the call on an empty cache returns. *)
Definition cache_sound (self : t) : Prop :=
  forall j i v, cache self !! (j, i) = Some v ->
    ret (__call__ (forget self) j i) = Ok v.

(** [later self self']: [self'] is [self] after some calls of [__call__]. *)
Inductive later (self : t) : t -> Prop :=
  | later_now : later self self
  | later_call self' j i :
      later self self' -> later self (post (__call__ self' j i)).

End Evaluator.
End Phi.

(** ** Exact-real numbers

    An implementation of [Numeric] in which a float, a tensor (of one
    element) and an mpf hold a real number and every operation is exact:
    the arithmetic the docstrings of the module reason in.  The type of a
    value is kept, because [Phi.__call__] tests it and because Python
    raises on a zero divisor where torch returns an infinity or a NaN.

    What this implementation leaves out: nothing rounds and nothing
    overflows, so math.exp, float ** int and the conversion of an int to a
    float never raise OverflowError here, and a torch operation that yields
    an infinity or a NaN stops with [NonFinite] instead of going on.  It
    tells what the code returns only at inputs where the code stays within
    the float range, and then up to rounding; [Ranged] below has the
    range. *)

Module Ideal.

Inductive pynum : Type :=
  | PyInt (n : Z)      (* int *)
  | PyFloat (x : R)    (* float *)
  | Tensor (x : R)     (* torch.Tensor *)
  | Mpf (x : R).       (* mpmath.mpf *)

Inductive kind : Set := KInt | KFloat | KTensor | KMpf.

Definition kind_of (v : pynum) : kind :=
  match v with
  | PyInt _ => KInt
  | PyFloat _ => KFloat
  | Tensor _ => KTensor
  | Mpf _ => KMpf
  end.

Definition value (v : pynum) : R :=
  match v with
  | PyInt n => IZR n
  | PyFloat x | Tensor x | Mpf x => x
  end.

Definition make (k : kind) (x : R) : pynum :=
  match k with
  | KInt | KFloat => PyFloat x
  | KTensor => Tensor x
  | KMpf => Mpf x
  end.

(** The type of [a op b] when one operand is not an int: a tensor or an mpf
    absorbs ints and floats, and neither accepts the other. *)
Definition join (a b : kind) : result kind :=
  match a, b with
  | KTensor, KMpf | KMpf, KTensor => Raise TypeError
  | KTensor, _ | _, KTensor => Ok KTensor
  | KMpf, _ | _, KMpf => Ok KMpf
  | _, _ => Ok KFloat
  end.

Definition is0 (x : R) : bool := if Req_dec_T x 0 then true else false.

(** [+], [-], [*]: int with int stays an int. *)
Definition binop (fz : Z -> Z -> Z) (fr : R -> R -> R) (a b : pynum)
  : result pynum :=
  match a, b with
  | PyInt m, PyInt n => Ok (PyInt (fz m n))
  | _, _ => k ← join (kind_of a) (kind_of b); Ok (make k (fr (value a) (value b)))
  end.

(** A zero divisor: Python and mpmath raise, torch returns inf or nan. *)
Definition zero_divisor (k : kind) : exn :=
  match k with
  | KTensor => NonFinite
  | _ => ZeroDivisionError
  end.

Definition div (a b : pynum) : result pynum :=
  k ← join (kind_of a) (kind_of b);
  if is0 (value b) then Raise (zero_divisor k)
  else Ok (make k (value a / value b)%R).

Definition power (a : pynum) (k : Z) : result pynum :=
  match a with
  | PyInt n =>
      if 0 <=? k then Ok (PyInt (n ^ k))
      else if n =? 0 then Raise ZeroDivisionError
      else Ok (PyFloat (powerRZ (IZR n) k))
  | _ =>
      if is0 (value a) && (k <? 0) then Raise (zero_divisor (kind_of a))
      else Ok (make (kind_of a) (powerRZ (value a) k))
  end.

Definition negate (a : pynum) : pynum :=
  match a with
  | PyInt n => PyInt (- n)
  | PyFloat x => PyFloat (- x)
  | Tensor x => Tensor (- x)
  | Mpf x => Mpf (- x)
  end.

Definition to_mpf (a : pynum) : result pynum :=
  match a with
  | Tensor _ => Raise TypeError
  | _ => Ok (Mpf (value a))
  end.

Definition pynum_arith : Arith pynum := {|
  from_int := PyInt;
  neg a := Ok (negate a);
  add := binop Z.add Rplus;
  sub := binop Z.sub Rminus;
  mul := binop Z.mul Rmult;
  truediv := div;
  pow := power;
|}.

#[export] Instance pynum_numeric : Numeric pynum := {|
  numeric_arith := pynum_arith;
  eq_zero a := Ok (match a with PyInt n => n =? 0 | _ => is0 (value a) end);
  is_float_or_tensor a :=
    match a with PyFloat _ | Tensor _ => true | _ => false end;
  float_ a := Ok (PyFloat (value a));
  math_exp a := Ok (PyFloat (exp (value a)));
  torch_zeros_like a :=
    match a with Tensor _ => Ok (Tensor 0) | _ => Raise TypeError end;
  tensor_exp a :=
    match a with Tensor x => Ok (Tensor (exp x)) | _ => Raise AttributeError end;
  mpf := to_mpf;
  mp_exp a := z ← to_mpf a; Ok (Mpf (exp (value z)));
  mp_factorial k := f ← math_factorial k; Ok (Mpf (IZR f));
|}.

End Ideal.

(** ** Binary64 numbers

    The operators of [Arith] on IEEE binary64 numbers, for the one function
    that uses nothing else, [calculate_gamma]: on Python floats ([/] raises
    [ZeroDivisionError] on a zero divisor, [**] raises as [float.__pow__]
    does), and on torch tensors (IEEE arithmetic, nothing raises).  The
    power function itself belongs to the platform (libm's [pow],
    [torch.pow]) and is a parameter. *)

Module Binary64.

Inductive num : Set :=
  | PyFloat (x : float)   (* a Python float; an int operand, converted *)
  | Tensor (x : float).   (* a torch.float64 tensor of one element *)

Definition data (a : num) : float :=
  match a with PyFloat x | Tensor x => x end.

(** The int [n] as a float: exact for [|n| <= 2^53]. *)
Definition float_of_int (n : Z) : float :=
  if n <? 0 then (- of_uint63 (Uint63.of_Z (- n)))%float
  else of_uint63 (Uint63.of_Z n).

(** x multiplied by itself k times: the power wherever that is exact. *)
Definition pow_by_mul (x : float) (k : Z) : float :=
  fold_right (fun _ acc => (x * acc)%float) 1%float (range k).

(** The denominator [c2*(2 - 3*c2)] as binary64 arithmetic computes it. *)
Definition denominator (c2 : float) : float :=
  (c2 * (float_of_int 2 - float_of_int 3 * c2))%float.

Section Operators.
Variable libm_pow : float -> Z -> float.
Variable torch_pow : float -> Z -> float.

Definition lift (f : float -> float -> float) (a b : num) : result num :=
  match a, b with
  | PyFloat x, PyFloat y => Ok (PyFloat (f x y))
  | _, _ => Ok (Tensor (f (data a) (data b)))
  end.

Definition div (a b : num) : result num :=
  match a, b with
  | PyFloat x, PyFloat y =>
      if is_zero y then Raise ZeroDivisionError else Ok (PyFloat (x / y))
  | _, _ => Ok (Tensor (data a / data b))
  end.

Definition power (a : num) (k : Z) : result num :=
  match a with
  | PyFloat x =>
      if is_zero x && (k <? 0) then Raise ZeroDivisionError
      else
        let r := libm_pow x k in
        if is_infinity r && is_finite x then Raise OverflowError
        else Ok (PyFloat r)
  | Tensor x => Ok (Tensor (torch_pow x k))
  end.

Definition num_arith : Arith num := {|
  from_int n := PyFloat (float_of_int n);
  neg a := Ok (match a with
               | PyFloat x => PyFloat (- x)
               | Tensor x => Tensor (- x)
               end);
  add := lift PrimFloat.add;
  sub := lift PrimFloat.sub;
  mul := lift PrimFloat.mul;
  truediv := div;
  pow := power;
|}.

End Operators.
End Binary64.

(** ** Exact arithmetic within the binary64 range

    Python ints and floats once more, now with the range of a float: a
    finite float holds a real number no larger than the largest binary64
    number, an arithmetic result beyond it is an infinity, and the
    operations that raise [OverflowError] in Python (math.exp, float ** int,
    the conversion of an int, int / int) raise it here.  Infinities and NaN
    follow IEEE 754.  Rounding, underflow and the sign of zero are left out:
    a result within the range is the exact real, and the range test is made
    on the exact result, so that a result between the largest float and
    2^1024 - 2^970, which binary64 rounds down to the largest float, counts
    as beyond the range.  There are no tensors in this implementation: the
    torch functions fail on a float as they do in Python (TypeError,
    AttributeError).  There are no mpf numbers either, and mpmath is given
    no meaning here: its three functions answer TypeError, which is not
    what mpmath does with a float, and nothing stated on this
    implementation calls them. *)

Module Ranged.

(** The largest binary64 number, (2 - 2^-52) * 2^1023. *)
Definition max_float : R := ((2 - / 2 ^ 52) * 2 ^ 1023)%R.

Inductive xfloat : Type :=
  | Fin (x : R)              (* a finite float *)
  | Inf (negative : bool)    (* inf, -inf *)
  | NaN.

Inductive rnum : Type :=
  | RInt (n : Z)         (* int *)
  | RFloat (x : xfloat). (* float *)

Definition in_range (x : R) : bool :=
  if Rle_dec (Rabs x) max_float then true else false.

Definition is_neg (x : R) : bool := if Rlt_dec x 0 then true else false.

Definition is_zero (x : R) : bool := if Req_dec_T x 0 then true else false.

(** The float of an exact result: itself, or an infinity beyond the range. *)
Definition overflow (x : R) : xfloat :=
  if in_range x then Fin x else Inf (is_neg x).

Definition xopp (x : xfloat) : xfloat :=
  match x with
  | Fin a => Fin (- a)
  | Inf s => Inf (negb s)
  | NaN => NaN
  end.

Definition xadd (x y : xfloat) : xfloat :=
  match x, y with
  | NaN, _ | _, NaN => NaN
  | Inf s, Inf t => if Bool.eqb s t then Inf s else NaN
  | Inf s, Fin _ | Fin _, Inf s => Inf s
  | Fin a, Fin b => overflow (a + b)
  end.

Definition xsub (x y : xfloat) : xfloat := xadd x (xopp y).

Definition xmul (x y : xfloat) : xfloat :=
  match x, y with
  | NaN, _ | _, NaN => NaN
  | Inf s, Inf t => Inf (xorb s t)
  | Inf s, Fin a | Fin a, Inf s =>
      if is_zero a then NaN else Inf (xorb s (is_neg a))
  | Fin a, Fin b => overflow (a * b)
  end.

(** x / y for a divisor that is not zero. *)
Definition xdiv (x y : xfloat) : xfloat :=
  match x, y with
  | NaN, _ | _, NaN => NaN
  | Inf _, Inf _ => NaN
  | Inf s, Fin b => Inf (xorb s (is_neg b))
  | Fin _, Inf _ => Fin 0
  | Fin a, Fin b => overflow (a / b)
  end.

(** The conversion of an int: OverflowError beyond the range. *)
Definition int_to_float (n : Z) : result xfloat :=
  if in_range (IZR n) then Ok (Fin (IZR n)) else Raise OverflowError.

Definition as_float (a : rnum) : result xfloat :=
  match a with
  | RInt n => int_to_float n
  | RFloat x => Ok x
  end.

(** [+], [-], [*]: int with int is exact, anything else is a float. *)
Definition binop (fz : Z -> Z -> Z) (fx : xfloat -> xfloat -> xfloat)
    (a b : rnum) : result rnum :=
  match a, b with
  | RInt m, RInt n => Ok (RInt (fz m n))
  | _, _ => x ← as_float a; y ← as_float b; Ok (RFloat (fx x y))
  end.

Definition xis_zero (x : xfloat) : bool :=
  match x with Fin a => is_zero a | _ => false end.

(** [/]: both operands become floats; a zero divisor raises, and int / int
    raises OverflowError when the quotient is too large for a float. *)
Definition div (a b : rnum) : result rnum :=
  match a, b with
  | RInt m, RInt n =>
      if n =? 0 then Raise ZeroDivisionError
      else if in_range (IZR m / IZR n) then Ok (RFloat (Fin (IZR m / IZR n)))
      else Raise OverflowError
  | _, _ =>
      x ← as_float a; y ← as_float b;
      if xis_zero y then Raise ZeroDivisionError else Ok (RFloat (xdiv x y))
  end.

(** float ** int, as float.__pow__: the exponent becomes a float first,
    x ** 0 is 1.0 for every x, zero to a negative power raises
    ZeroDivisionError, a finite result beyond the range raises
    OverflowError. *)
Definition float_pow (x : xfloat) (k : Z) : result xfloat :=
  _ ← int_to_float k;
  if k =? 0 then Ok (Fin 1)
  else match x with
       | NaN => Ok NaN
       | Inf s => Ok (if 0 <? k then Inf (s && Z.odd k) else Fin 0)
       | Fin a =>
           if is_zero a && (k <? 0) then Raise ZeroDivisionError
           else if in_range (powerRZ a k) then Ok (Fin (powerRZ a k))
           else Raise OverflowError
       end.

(** int ** int is exact for an exponent k >= 0; with k < 0 both operands
    become floats. *)
Definition power (a : rnum) (k : Z) : result rnum :=
  match a with
  | RInt n =>
      if 0 <=? k then Ok (RInt (n ^ k))
      else x ← int_to_float n; y ← float_pow x k; Ok (RFloat y)
  | RFloat x => y ← float_pow x k; Ok (RFloat y)
  end.

(** math.exp: OverflowError when the result is beyond the range. *)
Definition exp_float (x : xfloat) : result xfloat :=
  match x with
  | NaN => Ok NaN
  | Inf false => Ok (Inf false)
  | Inf true => Ok (Fin 0)
  | Fin a => if in_range (exp a) then Ok (Fin (exp a)) else Raise OverflowError
  end.

Definition rnum_arith : Arith rnum := {|
  from_int := RInt;
  neg a := Ok (match a with
               | RInt n => RInt (- n)
               | RFloat x => RFloat (xopp x)
               end);
  add := binop Z.add xadd;
  sub := binop Z.sub xsub;
  mul := binop Z.mul xmul;
  truediv := div;
  pow := power;
|}.

#[export] Instance rnum_numeric : Numeric rnum := {|
  numeric_arith := rnum_arith;
  eq_zero a := Ok (match a with RInt n => n =? 0 | RFloat x => xis_zero x end);
  is_float_or_tensor a := match a with RFloat _ => true | RInt _ => false end;
  float_ a := x ← as_float a; Ok (RFloat x);
  math_exp a := x ← as_float a; y ← exp_float x; Ok (RFloat y);
  torch_zeros_like _ := Raise TypeError;
  tensor_exp _ := Raise AttributeError;
  mpf _ := Raise TypeError;
  mp_exp _ := Raise TypeError;
  mp_factorial _ := Raise TypeError;
|}.

End Ranged.

(** ** The formulations of the specification, and two evaluators *)

Import Ideal.

(** x^k / k!, and its sum over the indices of a list. *)
Definition term (x : R) (k : Z) : R :=
  (powerRZ x k / IZR (Z.of_nat (fact (Z.to_nat k))))%R.

Definition taylor (x : R) (l : list Z) : R :=
  fold_right (fun k acc => (term x k + acc)%R) 0%R l.

(** Gamma(j) = (j-1)!, the upper incomplete gamma function by its finite
    sum, and the two formulations of phi_j as sections 4.1 to 4.3 of the
    specification word them, over the reals. *)
Definition Gamma (j : Z) : R := IZR (Z.of_nat (fact (Z.to_nat (j - 1)))).

Definition Gamma_inc (j : Z) (x : R) : R :=
  (Gamma j * exp (- x) * taylor x (range j))%R.

Definition SeriesPhi (j : Z) (x : R) : R :=
  (exp x * powerRZ x (- j) * (1 - Gamma_inc j x / Gamma j))%R.

Definition RemainderPhi (j : Z) (x : R) : R :=
  ((exp x - taylor x (range j)) / powerRZ x j)%R.

(** Phi(0.5, [0.5, 0]): standard precision, the last coefficient the int 0. *)
Definition standard_example : @Phi.t pynum :=
  {| Phi.h := PyFloat (1 / 2); Phi.c := [PyFloat (1 / 2); PyInt 0];
     Phi.cache := ∅; Phi.phi_f := Phi.use_phi |}.

(** Phi(0.5, [0.5, 0], analytic_solution=True): everything an mpf. *)
Definition extended_example : @Phi.t pynum :=
  {| Phi.h := Mpf (1 / 2); Phi.c := [Mpf (1 / 2); Mpf (IZR 0)];
     Phi.cache := ∅; Phi.phi_f := Phi.use_phi_mpmath_series |}.

(** * Properties *)

(** ** Python sequences and loops *)

Lemma range_nonpos (n : Z) : n <= 0 -> range n = [].
Proof.
  intros Hn. unfold range, seqZ.
  replace (Z.to_nat n) with 0%nat by lia. reflexivity.
Qed.

Lemma range_nonneg (n k : Z) : k ∈ range n -> 0 <= k.
Proof. unfold range. rewrite elem_of_seqZ. lia. Qed.

Lemma getitem_last {A : Type} (l : list A) (x : A) :
  getitem (l ++ [x]) (-1) = Ok x.
Proof.
  unfold getitem. rewrite length_app. cbn [length].
  replace (-1 <? 0) with true by reflexivity.
  set (n := Z.of_nat (length l + 1)).
  assert (Hn : n = Z.of_nat (length l) + 1) by (unfold n; lia).
  replace ((-1 + n <? 0) || (n <=? -1 + n)) with false.
  2:{ symmetry. apply orb_false_intro; [apply Z.ltb_ge | apply Z.leb_gt]; lia. }
  replace (Z.to_nat (-1 + n)) with (length l) by lia.
  rewrite lookup_app_r by lia. rewrite Nat.sub_diag. reflexivity.
Qed.

Lemma getitem_nil {A : Type} (k : Z) : getitem (@nil A) k = Raise IndexError.
Proof.
  unfold getitem. cbn [length]. change (Z.of_nat 0) with 0.
  destruct (Z.ltb_spec k 0) as [Hk|Hk].
  - replace (k + 0 <? 0) with true by (symmetry; apply Z.ltb_lt; lia).
    reflexivity.
  - replace (0 <=? k) with true by (symmetry; apply Z.leb_le; lia).
    rewrite orb_true_r. reflexivity.
Qed.

Lemma getitem_beyond {A : Type} (l : list A) (k : Z) :
  Z.of_nat (length l) <= k -> getitem l k = Raise IndexError.
Proof.
  intros Hk. unfold getitem.
  replace (k <? 0) with false by (symmetry; apply Z.ltb_ge; lia).
  replace (k <? 0) with false by (symmetry; apply Z.ltb_ge; lia).
  replace (Z.of_nat (length l) <=? k) with true by (symmetry; apply Z.leb_le; lia).
  reflexivity.
Qed.

Lemma getitem_inside {A : Type} (l : list A) (k : Z) (x : A) :
  0 <= k -> l !! Z.to_nat k = Some x -> getitem l k = Ok x.
Proof.
  intros Hk Hx. pose proof (lookup_lt_Some _ _ _ Hx) as Hlt.
  unfold getitem.
  replace (k <? 0) with false by (symmetry; apply Z.ltb_ge; lia).
  replace (k <? 0) with false by (symmetry; apply Z.ltb_ge; lia).
  replace (Z.of_nat (length l) <=? k) with false by (symmetry; apply Z.leb_gt; lia).
  cbn. rewrite Hx. reflexivity.
Qed.

(** ** The evaluator, for every implementation of the numbers *)

Section EvaluatorProperties.
Context {V : Type} `{!Numeric V}.
Implicit Types (self : @Phi.t V) (j i : Z) (v cv : V).

(** One step of lines 122-129: an exception leaves [self] alone, a value is
    stored under the key and returned. *)
Lemma call_tail_cases self j i cv :
  (exists e, Phi.ret (Phi.call_tail self j i cv) = Raise e
             /\ Phi.post (Phi.call_tail self j i cv) = self)
  \/ (exists v, Phi.ret (Phi.call_tail self j i cv) = Ok v
             /\ Phi.post (Phi.call_tail self j i cv) = Phi.store self (j, i) v).
Proof.
  unfold Phi.call_tail.
  destruct ((j =? 0) && is_float_or_tensor cv).
  - destruct (neg (Phi.h self) ≫= _) as [r|e]; cbn; eauto.
  - destruct (neg (Phi.h self) ≫= _) as [x|e]; cbn; eauto.
    destruct (Phi.call (Phi.phi_f self) j x) as [r|e]; cbn; eauto.
Qed.

(** A call either leaves [self] as it was, or it found the key absent and
    stored under it the value it returns. *)
Lemma call_cases self j i :
  Phi.post (Phi.__call__ self j i) = self
  \/ (exists v, Phi.ret (Phi.__call__ self j i) = Ok v
             /\ Phi.cache self !! (j, i) = None
             /\ Phi.post (Phi.__call__ self j i) = Phi.store self (j, i) v).
Proof.
  unfold Phi.__call__.
  destruct (Phi.cache self !! (j, i)) as [v|] eqn:Hhit; cbn; [by left|].
  assert (Hev : forall cv,
    Phi.post (Phi.call_tail self j i cv) = self
    \/ (exists v, Phi.ret (Phi.call_tail self j i cv) = Ok v /\ @None V = None
          /\ Phi.post (Phi.call_tail self j i cv) = Phi.store self (j, i) v)).
  { intros cv. destruct (call_tail_cases self j i cv) as [(e & _ & Hp)|(v & Hr & Hp)];
      [by left | right; eauto]. }
  destruct (i <? 0); [apply Hev|].
  destruct (getitem (Phi.c self) (i - 1)) as [cv|e]; cbn; [|by left].
  destruct (eq_zero cv) as [[|]|e]; cbn; [right; eauto | apply Hev | by left].
Qed.

Lemma call_raise self j i e :
  Phi.ret (Phi.__call__ self j i) = Raise e ->
  Phi.post (Phi.__call__ self j i) = self.
Proof.
  intros Hr. destruct (call_cases self j i) as [Hp|(v & Hv & _ & _)]; [done|].
  congruence.
Qed.

(** On a key that is not cached the outcome does not depend on the cache. *)
Lemma call_miss self j i :
  Phi.cache self !! (j, i) = None ->
  Phi.ret (Phi.__call__ self j i) = Phi.ret (Phi.__call__ (Phi.forget self) j i)
  /\ Phi.probe (Phi.__call__ self j i)
     = Phi.probe (Phi.__call__ (Phi.forget self) j i).
Proof.
  intros Hmiss.
  assert (Hev : forall cv,
    Phi.ret (Phi.call_tail self j i cv) = Phi.ret (Phi.call_tail (Phi.forget self) j i cv)
    /\ Phi.probe (Phi.call_tail self j i cv)
       = Phi.probe (Phi.call_tail (Phi.forget self) j i cv)).
  { intros cv. unfold Phi.call_tail. cbn [Phi.forget Phi.h Phi.phi_f].
    destruct ((j =? 0) && is_float_or_tensor cv).
    - destruct (neg (Phi.h self) ≫= _); done.
    - destruct (neg (Phi.h self) ≫= _) as [x|]; [|done].
      destruct (Phi.call (Phi.phi_f self) j x); done. }
  unfold Phi.__call__. rewrite Hmiss.
  cbn [Phi.forget Phi.cache Phi.c]. rewrite lookup_empty.
  destruct (i <? 0); [apply Hev|].
  destruct (getitem (Phi.c self) (i - 1)) as [cv|]; [|done].
  destruct (eq_zero cv) as [[|]|]; [done | apply Hev | done].
Qed.

Lemma forget_store self key v : Phi.forget (Phi.store self key v) = Phi.forget self.
Proof. reflexivity. Qed.

Lemma init_sound h0 c0 analytic self :
  Phi.__init__ h0 c0 analytic = Ok self -> Phi.cache self = ∅.
Proof.
  unfold Phi.__init__. destruct analytic.
  - destruct (float_ h0) as [hf|]; cbn; [|done].
    destruct (mpf hf) as [h'|]; cbn; [|done].
    destruct (mapM mpf c0) as [c'|]; cbn; [|done].
    by intros [= <-].
  - by intros [= <-].
Qed.

(** Memoisation is sound on every instance a program can hold. *)
Lemma reachable_sound self : Phi.reachable self -> Phi.cache_sound self.
Proof.
  induction 1 as [h0 c0 a self Hinit | self j i Hreach IH].
  - intros j i v Hv. rewrite (init_sound _ _ _ _ Hinit) in Hv.
    by rewrite lookup_empty in Hv.
  - destruct (call_cases self j i) as [->|(v & Hret & Hmiss & ->)]; [done|].
    intros j' i' v' Hv'. rewrite forget_store.
    cbn [Phi.store Phi.cache] in Hv'.
    destruct (decide ((j, i) = (j', i'))) as [[= <- <-]|Hne].
    + rewrite lookup_insert_eq in Hv'. injection Hv' as <-.
      destruct (call_miss self j i Hmiss) as [<- _]. done.
    + rewrite lookup_insert_ne in Hv' by done. by apply IH.
Qed.

Lemma call_hit self j i v :
  Phi.cache self !! (j, i) = Some v ->
  Phi.__call__ self j i = Phi.Outcome (Ok v) self [].
Proof. intros Hhit. unfold Phi.__call__. by rewrite Hhit. Qed.

(** Whatever a call returns is in the cache afterwards, under its key. *)
Lemma call_ok_cached self j i v :
  Phi.ret (Phi.__call__ self j i) = Ok v ->
  Phi.cache (Phi.post (Phi.__call__ self j i)) !! (j, i) = Some v.
Proof.
  destruct (Phi.cache self !! (j, i)) as [w|] eqn:Hhit.
  - rewrite (call_hit _ _ _ _ Hhit). cbn. by intros [= <-].
  - destruct (call_cases self j i) as [Hp|(w & Hw & _ & Hp)].
    + (* no store on a miss: the call raised *)
      intros Hret. exfalso. revert Hp Hret. unfold Phi.__call__. rewrite Hhit.
      assert (Hev : forall cv,
        Phi.post (Phi.call_tail self j i cv) = self ->
        Phi.ret (Phi.call_tail self j i cv) = Ok v -> False).
      { intros cv Hp Hr.
        destruct (call_tail_cases self j i cv) as [(e & He & _)|(w & _ & Hw)];
          [congruence|].
        rewrite Hw in Hp. apply (f_equal (fun s => Phi.cache s !! (j, i))) in Hp.
        cbn in Hp. rewrite lookup_insert_eq in Hp. congruence. }
      destruct (i <? 0); [apply Hev|].
      destruct (getitem (Phi.c self) (i - 1)) as [cv|]; cbn; [|done].
      destruct (eq_zero cv) as [[|]|]; cbn; [|apply Hev|done].
      intros Hp _. apply (f_equal (fun s => Phi.cache s !! (j, i))) in Hp.
      cbn in Hp. rewrite lookup_insert_eq in Hp. congruence.
    + rewrite Hw, Hp. intros [= <-]. cbn. apply lookup_insert_eq.
Qed.

(** The call on an empty cache, for an index [i >= 1] whose coefficient
    compares equal to 0. *)
Lemma fresh_zero self j i cv :
  1 <= i -> Phi.c self !! Z.to_nat (i - 1) = Some cv -> eq_zero cv = Ok true ->
  Phi.cache self !! (j, i) = None ->
  Phi.__call__ self j i
  = Phi.Outcome (Ok (from_int 0)) (Phi.store self (j, i) (from_int 0)) [].
Proof.
  intros Hi Hcv Hz Hmiss. unfold Phi.__call__. rewrite Hmiss.
  replace (i <? 0) with false by (symmetry; apply Z.ltb_ge; lia).
  rewrite (getitem_inside _ _ cv) by (done || lia). by rewrite Hz.
Qed.

Lemma fresh_index_error self j i :
  0 <= i -> Z.of_nat (length (Phi.c self)) < i \/ Phi.c self = [] ->
  Phi.cache self !! (j, i) = None ->
  Phi.__call__ self j i = Phi.Outcome (Raise IndexError) self [].
Proof.
  intros Hi Hout Hmiss. unfold Phi.__call__. rewrite Hmiss.
  replace (i <? 0) with false by (symmetry; apply Z.ltb_ge; lia).
  destruct Hout as [Hlen|Hnil].
  - by rewrite getitem_beyond by lia.
  - by rewrite Hnil, getitem_nil.
Qed.

(** C7: evaluation is idempotent per key.  If a call of evaluate(j, i)
    returns v and leaves the evaluator in state sigma, then sigma holds v in
    its cache under (j, i), and the same call in sigma returns that cached v
    again, calls the phi function not at all (the probe is empty) and leaves
    sigma as it is. *)
Theorem evaluate_idempotent self j i v (sigma : @Phi.t V) (tr : list (Z * V)) :
  Phi.__call__ self j i = Phi.Outcome (Ok v) sigma tr ->
  Phi.cache sigma !! (j, i) = Some v
  /\ Phi.__call__ sigma j i = Phi.Outcome (Ok v) sigma [].
Proof.
  intros Hcall.
  assert (Hhit : Phi.cache sigma !! (j, i) = Some v).
  { pose proof (call_ok_cached self j i v) as Hc.
    rewrite Hcall in Hc. by apply Hc. }
  split; [exact Hhit | by apply call_hit].
Qed.

(** C10: a call of evaluate(j, i), returning or raising, leaves h, the
    sequence c, the selected phi function and every cache entry under
    another key unchanged; when it raises the evaluator is exactly as before;
    otherwise the evaluator is either unchanged or has gained the one entry
    (j, i), holding the value returned. *)
Theorem call_frame self j i :
  Phi.h (Phi.post (Phi.__call__ self j i)) = Phi.h self
  /\ Phi.c (Phi.post (Phi.__call__ self j i)) = Phi.c self
  /\ Phi.phi_f (Phi.post (Phi.__call__ self j i)) = Phi.phi_f self
  /\ (forall key, key <> (j, i) ->
        Phi.cache (Phi.post (Phi.__call__ self j i)) !! key
        = Phi.cache self !! key)
  /\ (forall e, Phi.ret (Phi.__call__ self j i) = Raise e ->
        Phi.post (Phi.__call__ self j i) = self)
  /\ (Phi.post (Phi.__call__ self j i) = self
      \/ exists v, Phi.ret (Phi.__call__ self j i) = Ok v
           /\ Phi.cache self !! (j, i) = None
           /\ Phi.cache (Phi.post (Phi.__call__ self j i))
               = <[(j, i) := v]> (Phi.cache self)).
Proof.
  pose proof (call_raise self j i) as Hraise.
  destruct (call_cases self j i) as [Hp|(v & Hv & Hmiss & Hp)]; rewrite Hp in *.
  - repeat split; try done. by left.
  - cbn. repeat split; try done.
    + intros key Hkey. by rewrite lookup_insert_ne.
    + right. by exists v.
Qed.

(** C6: on every evaluator a program can hold, for every order j and every
    index i >= 1 inside c whose coefficient c[i-1] compares equal to 0,
    evaluate(j, i) returns the integer 0, the cache holds 0 under (j, i)
    afterwards, and no phi function is called. *)
Theorem zero_coefficient self j i cv :
  Phi.reachable self ->
  1 <= i -> Phi.c self !! Z.to_nat (i - 1) = Some cv -> eq_zero cv = Ok true ->
  Phi.ret (Phi.__call__ self j i) = Ok (from_int 0)
  /\ Phi.cache (Phi.post (Phi.__call__ self j i)) !! (j, i) = Some (from_int 0)
  /\ Phi.probe (Phi.__call__ self j i) = [].
Proof.
  intros Hreach Hi Hcv Hz.
  destruct (Phi.cache self !! (j, i)) as [w|] eqn:Hhit.
  - pose proof (reachable_sound self Hreach j i w Hhit) as Hfresh.
    rewrite (fresh_zero (Phi.forget self) j i cv) in Hfresh
      by (done || apply lookup_empty).
    cbn in Hfresh. injection Hfresh as <-.
    rewrite (call_hit _ _ _ _ Hhit). by cbn.
  - rewrite (fresh_zero self j i cv) by done. cbn.
    by rewrite lookup_insert_eq.
Qed.

(** C2, as the code has it: on every evaluator a program can hold and for
    every i >= 0, evaluate(j, i) raises IndexError, changing nothing, when
    i > len(c) or c is empty.  The index 0 is not rejected when c is not
    empty: c[0 - 1] is the last coefficient, and a call on a key not yet
    cached goes on with it. *)
Theorem index_outside_sequence self j i :
  Phi.reachable self -> 0 <= i ->
  (Z.of_nat (length (Phi.c self)) < i \/ Phi.c self = [] ->
     Phi.__call__ self j i = Phi.Outcome (Raise IndexError) self [])
  /\ (forall l x, i = 0 -> Phi.c self = l ++ [x] ->
      Phi.cache self !! (j, i) = None ->
      Phi.__call__ self j i
      = match eq_zero x with
        | Raise e => Phi.Outcome (Raise e) self []
        | Ok true =>
            Phi.Outcome (Ok (from_int 0)) (Phi.store self (j, i) (from_int 0)) []
        | Ok false => Phi.call_tail self j i x
        end).
Proof.
  intros Hreach Hi. split.
  - intros Hout.
    destruct (Phi.cache self !! (j, i)) as [w|] eqn:Hhit.
    + pose proof (reachable_sound self Hreach j i w Hhit) as Hfresh.
      rewrite (fresh_index_error (Phi.forget self) j i) in Hfresh
        by (done || apply lookup_empty).
      discriminate Hfresh.
    + by apply fresh_index_error.
  - intros l x -> Hc Hmiss. unfold Phi.__call__. rewrite Hmiss, Hc.
    change (0 <? 0) with false. cbn match.
    change (0 - 1) with (-1). by rewrite getitem_last.
Qed.

End EvaluatorProperties.

(** ** The formulas in exact arithmetic *)

Lemma is0_true (x : R) : x = 0%R -> is0 x = true.
Proof. intros ->. unfold is0. destruct (Req_dec_T 0 0); [done|lra]. Qed.

Lemma is0_false (x : R) : x <> 0%R -> is0 x = false.
Proof. intros Hx. unfold is0. by destruct (Req_dec_T x 0). Qed.

Lemma fact_nonzero (n : nat) : IZR (Z.of_nat (fact n)) <> 0%R.
Proof. pose proof (lt_O_fact n). apply not_0_IZR. lia. Qed.

Lemma math_factorial_nonneg (k : Z) :
  0 <= k -> math_factorial k = Ok (Z.of_nat (fact (Z.to_nat k))).
Proof.
  intros Hk. unfold math_factorial.
  by replace (k <? 0) with false by (symmetry; apply Z.ltb_ge; lia).
Qed.

Lemma math_factorial_neg (k : Z) : k < 0 -> math_factorial k = Raise ValueError.
Proof.
  intros Hk. unfold math_factorial.
  by replace (k <? 0) with true by (symmetry; apply Z.ltb_lt; lia).
Qed.

(** The steps of the three summation loops. *)
Ltac loop_step Hk :=
  cbn; rewrite ?(math_factorial_nonneg _ Hk);
  try replace (_ <? 0) with false by (symmetry; apply Z.ltb_ge; lia);
  rewrite ?andb_false_r; cbn;
  unfold div; cbn; rewrite is0_false by apply fact_nonzero; cbn.

Lemma gamma_step (x s : R) (k : Z) :
  0 <= k ->
  (numerator ← pow (PyFloat x) k;
   denom ← math_factorial k;
   quotient ← truediv numerator (from_int denom);
   add (PyFloat s) quotient)
  = Ok (PyFloat (s + term x k)).
Proof. intros Hk. by loop_step Hk. Qed.

Lemma gamma_loop (x s : R) (l : list Z) :
  Forall (fun k => 0 <= k) l ->
  for_in l (fun sum_ k =>
      numerator ← pow (PyFloat x) k;
      denom ← math_factorial k;
      quotient ← truediv numerator (from_int denom);
      add sum_ quotient) (PyFloat s)
  = Ok (PyFloat (s + taylor x l)).
Proof.
  intros Hl. revert s. induction Hl as [|k l Hk _ IH]; intros s.
  - cbn. by rewrite Rplus_0_r.
  - cbn [for_in]. rewrite (gamma_step x s k Hk).
    cbn [mbind result_bind]. rewrite IH. cbn [taylor fold_right].
    by rewrite Rplus_assoc.
Qed.

Lemma range_Forall_nonneg (n : Z) : Forall (fun k => 0 <= k) (range n).
Proof. apply Forall_forall. intros k. apply range_nonneg. Qed.

Lemma gamma_step_int (x : R) (n k : Z) :
  0 <= k ->
  (numerator ← pow (PyFloat x) k;
   denom ← math_factorial k;
   quotient ← truediv numerator (from_int denom);
   add (PyInt n) quotient)
  = Ok (PyFloat (IZR n + term x k)).
Proof. intros Hk. by loop_step Hk. Qed.

Lemma gamma_loop_from_zero (x : R) (j : Z) :
  1 <= j ->
  for_in (range j) (fun sum_ k =>
      numerator ← pow (PyFloat x) k;
      denom ← math_factorial k;
      quotient ← truediv numerator (from_int denom);
      add sum_ quotient) (from_int 0)
  = Ok (PyFloat (taylor x (range j))).
Proof.
  intros Hj. pose proof (range_Forall_nonneg j) as Hall. revert Hall.
  unfold range. rewrite seqZ_cons by lia. intros Hall.
  apply Forall_cons in Hall as [H0 Hall]. cbn [for_in].
  change (from_int 0) with (PyInt 0). rewrite (gamma_step_int x 0 0 H0).
  cbn [mbind result_bind]. rewrite (gamma_loop x _ _ Hall).
  do 2 f_equal. unfold taylor. cbn [fold_right]. lra.
Qed.



Lemma mpf_step (x s : R) (k : Z) :
  0 <= k ->
  (p ← pow (Mpf x) k;
   f ← mp_factorial k;
   q ← truediv p f;
   add (Mpf s) q)
  = Ok (Mpf (s + term x k)).
Proof. intros Hk. by loop_step Hk. Qed.

Lemma mpf_loop (x s : R) (l : list Z) :
  Forall (fun k => 0 <= k) l ->
  for_in l (fun S k =>
      p ← pow (Mpf x) k;
      f ← mp_factorial k;
      q ← truediv p f;
      add S q) (Mpf s)
  = Ok (Mpf (s + taylor x l)).
Proof.
  intros Hl. revert s. induction Hl as [|k l Hk _ IH]; intros s.
  - cbn. by rewrite Rplus_0_r.
  - cbn [for_in]. rewrite (mpf_step x s k Hk).
    cbn [mbind result_bind]. rewrite IH. cbn [taylor fold_right].
    by rewrite Rplus_assoc.
Qed.


(** [phi] computes the gamma-ratio form. *)
Lemma phi_ideal (j : Z) (x : R) :
  1 <= j -> x <> 0%R -> phi j (PyFloat x) = Ok (PyFloat (SeriesPhi j x)).
Proof.
  intros Hj Hx. unfold phi.
  replace (j >? 0) with true by (symmetry; apply Z.gtb_lt; lia).
  unfold _gamma. rewrite math_factorial_nonneg by lia.
  cbn [mbind result_bind]. unfold _incomplete_gamma.
  cbn [mbind result_bind]. rewrite (gamma_loop_from_zero x j Hj).
  cbn. rewrite (is0_false x Hx). cbn. unfold div. cbn.
  rewrite is0_false by apply fact_nonzero. cbn.
  do 2 f_equal. unfold SeriesPhi, Gamma_inc, Gamma.
  pose proof (fact_nonzero (Z.to_nat (j - 1))) as Hg. field. done.
Qed.

Lemma power_defined (a : pynum) (k : Z) :
  kind_of a <> KInt -> value a <> 0%R \/ 0 <= k ->
  power a k = Ok (make (kind_of a) (powerRZ (value a) k)).
Proof.
  intros Hkind Hdef.
  assert (Hguard : is0 (value a) && (k <? 0) = false).
  { destruct Hdef as [Hx|Hk]; [by rewrite (is0_false _ Hx)|].
    replace (k <? 0) with false by (symmetry; apply Z.ltb_ge; lia).
    apply andb_false_r. }
  destruct a; cbn in *; by rewrite ?Hguard.
Qed.





(** ** What the formulas do with an order or an argument below 1 *)

Section FormulaProperties.
Context {V : Type} `{!Numeric V}.

Lemma phi_requires_positive (j : Z) (x : V) :
  j <= 0 -> phi j x = Raise AssertionError.
Proof.
  intros Hj. unfold phi.
  by replace (j >? 0) with false
    by (symmetry; rewrite Z.gtb_ltb; apply Z.ltb_ge; lia).
Qed.

(** No check in [_phi]: the loop is empty and the quotient is formed. *)
Lemma _phi_unchecked (j : Z) (x : V) :
  j <= 0 ->
  _phi j x = (remainder ← torch_zeros_like x;
              e ← tensor_exp x;
              d ← sub e remainder;
              p ← pow x j;
              truediv d p).
Proof.
  intros Hj. unfold _phi. rewrite (range_nonpos j Hj).
  by destruct (torch_zeros_like x).
Qed.

Lemma phi_mpmath_series_unchecked (j : Z) (x : V) :
  j <= 0 ->
  phi_mpmath_series j x = (f ← float_ x;
                           z ← mpf f;
                           S ← mpf (from_int 0);
                           e ← mp_exp z;
                           d ← sub e S;
                           p ← pow z j;
                           phi_val ← truediv d p;
                           float_ phi_val).
Proof.
  intros Hj. unfold phi_mpmath_series. rewrite (range_nonpos j Hj).
  destruct (float_ x) as [f|]; [|done]. cbn [mbind result_bind].
  destruct (mpf f) as [z|]; [|done]. cbn [mbind result_bind].
  by destruct (mpf (from_int 0)).
Qed.

Lemma _incomplete_gamma_computes_gamma (s : Z) (x : V) :
  s < 1 -> _incomplete_gamma s x None = Raise ValueError.
Proof.
  intros Hs. unfold _incomplete_gamma, _gamma.
  by rewrite math_factorial_neg by lia.
Qed.

Lemma _incomplete_gamma_given_gamma (s g : Z) (x : V) :
  s < 1 ->
  _incomplete_gamma s x (Some g) = (nx ← neg x;
                                    e ← math_exp nx;
                                    t ← mul (from_int 0) e;
                                    mul t (from_int g)).
Proof.
  intros Hs. unfold _incomplete_gamma. by rewrite range_nonpos by lia.
Qed.

End FormulaProperties.



Lemma _incomplete_gamma_given_ideal (s g : Z) (a : pynum) :
  s < 1 ->
  _incomplete_gamma s a (Some g)
  = Ok (PyFloat (IZR 0 * exp (- value a) * IZR g)).
Proof.
  intros Hs. rewrite (_incomplete_gamma_given_gamma s g a Hs).
  destruct a; cbn; by rewrite ?opp_IZR.
Qed.

(** ** The three formulas and the gamma helper *)



(** With s = 0 and gamma_s = 1 given, the helper returns on the float 1.0. *)
Lemma incomplete_gamma_at_0_returns :
  _incomplete_gamma 0 (PyFloat 1) (Some 1) = Ok (PyFloat (0 * exp (- 1) * 1)).
Proof. by rewrite _incomplete_gamma_given_ideal by lia. Qed.

(** ** The evaluator on the two examples *)

Lemma standard_example_init :
  Phi.__init__ (PyFloat (1 / 2)) [PyFloat (1 / 2); PyInt 0] false
  = Ok standard_example.
Proof. reflexivity. Qed.

Lemma extended_example_init :
  Phi.__init__ (PyFloat (1 / 2)) [PyFloat (1 / 2); PyInt 0] true
  = Ok extended_example.
Proof. reflexivity. Qed.

Lemma standard_example_reachable : Phi.reachable standard_example.
Proof. eapply Phi.reachable_init. exact standard_example_init. Qed.

(** The standard-precision evaluator Phi(0.5, [0.5, 0]) called with order 0
    and the default index -1: the coefficient is the int 1, which is neither
    a float nor a tensor, so the exponential shortcut is skipped, [phi] is
    called with j = 0 and its assertion fails. *)
Theorem order_zero_default_index_fails :
  Phi.__call__ standard_example 0 (-1)
  = Phi.Outcome (Raise AssertionError) standard_example
      [(0, PyFloat (- (1 / 2) * IZR 1))].
Proof. reflexivity. Qed.

(** Index 0 on Phi(0.5, [0.5, 0]): c[-1] is the last coefficient, the int
    0, and the call returns 0 instead of raising. *)
Lemma index_zero_is_accepted :
  Phi.__call__ standard_example 3 0
  = Phi.Outcome (Ok (PyInt 0)) (Phi.store standard_example (3, 0) (PyInt 0)) [].
Proof. reflexivity. Qed.

Lemma index_outside_sequence_at_5 :
  (Z.of_nat (length (Phi.c standard_example)) < 5
   \/ Phi.c standard_example = [] ->
     Phi.__call__ standard_example 1 5
     = Phi.Outcome (Raise IndexError) standard_example [])
  /\ (forall l x, 5 = 0 -> Phi.c standard_example = l ++ [x] ->
      Phi.cache standard_example !! (1, 5) = None ->
      Phi.__call__ standard_example 1 5
      = match eq_zero x with
        | Raise e => Phi.Outcome (Raise e) standard_example []
        | Ok true =>
            Phi.Outcome (Ok (from_int 0))
              (Phi.store standard_example (1, 5) (from_int 0)) []
        | Ok false => Phi.call_tail standard_example 1 5 x
        end).
Proof.
  apply (index_outside_sequence standard_example 1 5);
    [exact standard_example_reachable | lia].
Defined.

Lemma zero_coefficient_at_2 :
  Phi.ret (Phi.__call__ standard_example 3 2) = Ok (from_int 0)
  /\ Phi.cache (Phi.post (Phi.__call__ standard_example 3 2)) !! (3, 2)
     = Some (from_int 0)
  /\ Phi.probe (Phi.__call__ standard_example 3 2) = [].
Proof.
  apply (zero_coefficient standard_example 3 2 (PyInt 0));
    [exact standard_example_reachable | lia | reflexivity | reflexivity].
Defined.

(** evaluate(1, 1) on Phi(0.5, [0.5, 0]): one call of [phi], at -0.5 * 0.5,
    whose value is stored and returned. *)
Lemma standard_example_first_call :
  Phi.__call__ standard_example 1 1
  = Phi.Outcome (Ok (PyFloat (SeriesPhi 1 (- (1 / 2) * (1 / 2)))))
      (Phi.store standard_example (1, 1)
         (PyFloat (SeriesPhi 1 (- (1 / 2) * (1 / 2)))))
      [(1, PyFloat (- (1 / 2) * (1 / 2)))].
Proof.
  unfold Phi.__call__.
  change (Phi.cache standard_example !! (1, 1)) with (@None pynum).
  change (getitem (Phi.c standard_example) (1 - 1)) with (Ok (PyFloat (1 / 2))).
  cbn -[phi is0 Phi.call_tail]. rewrite is0_false by lra.
  unfold Phi.call_tail. cbn -[phi].
  by rewrite phi_ideal by (lia || lra).
Qed.

Lemma evaluate_idempotent_after_first_call :
  Phi.cache
    (Phi.store standard_example (1, 1)
       (PyFloat (SeriesPhi 1 (- (1 / 2) * (1 / 2))))) !! (1, 1)
  = Some (PyFloat (SeriesPhi 1 (- (1 / 2) * (1 / 2))))
  /\ Phi.__call__
       (Phi.store standard_example (1, 1)
          (PyFloat (SeriesPhi 1 (- (1 / 2) * (1 / 2))))) 1 1
     = Phi.Outcome (Ok (PyFloat (SeriesPhi 1 (- (1 / 2) * (1 / 2)))))
         (Phi.store standard_example (1, 1)
            (PyFloat (SeriesPhi 1 (- (1 / 2) * (1 / 2))))) [].
Proof.
  apply (evaluate_idempotent standard_example 1 1 _ _
           [(1, PyFloat (- (1 / 2) * (1 / 2)))]).
  exact standard_example_first_call.
Defined.

(** ** The coefficient on binary64 numbers *)

(** IEEE division by a zero: an infinity, or NaN. *)
Lemma zero_divisor_nonfinite (x y : float) :
  is_zero y = true -> is_infinity (x / y) || is_nan (x / y) = true.
Proof.
  unfold is_zero, is_infinity, is_nan.
  rewrite !FloatAxioms.eqb_spec, FloatAxioms.abs_spec, FloatAxioms.div_spec.
  change (Prim2SF zero) with (S754_zero false).
  change (Prim2SF infinity) with (S754_infinity false).
  destruct (Prim2SF y) as [sy| sy | | sy my ey]; cbn;
    try discriminate; try (destruct sy; discriminate).
  intros _. destruct (Prim2SF x) as [sx| sx | | sx mx ex]; reflexivity.
Qed.

Section CoefficientProperties.
Variables libm_pow torch_pow : float -> Z -> float.

Abbreviation gamma_of c2 c3 :=
  (@calculate_gamma Binary64.num (Binary64.num_arith libm_pow torch_pow) c2 c3).

Lemma calculate_gamma_floats (c2 c3 : float) :
  is_zero (Binary64.denominator c2) = true ->
  gamma_of (Binary64.PyFloat c2) (Binary64.PyFloat c3)
  = Raise (if is_infinity (libm_pow c3 3) && is_finite c3
           then OverflowError else ZeroDivisionError).
Proof.
  intros Hden. unfold calculate_gamma. cbn -[is_zero is_infinity is_finite].
  rewrite andb_false_r.
  destruct (is_infinity (libm_pow c3 3) && is_finite c3); [done|].
  cbn -[is_zero]. unfold Binary64.denominator in Hden. cbn -[is_zero] in Hden.
  by rewrite Hden.
Qed.

Lemma calculate_gamma_tensors (c2 c3 : float) :
  is_zero (Binary64.denominator c2) = true ->
  exists v, gamma_of (Binary64.Tensor c2) (Binary64.Tensor c3)
            = Ok (Binary64.Tensor v)
            /\ is_infinity v || is_nan v = true.
Proof.
  intros Hden. unfold calculate_gamma. cbn -[is_zero is_infinity is_nan].
  eexists. split; [reflexivity|].
  apply zero_divisor_nonfinite.
  unfold Binary64.denominator in Hden. cbn -[is_zero] in Hden. exact Hden.
Qed.

(** C8, as the code has it: [calculate_gamma] handles no error, and what a
    zero denominator c2*(2 - 3*c2) does is what the division of the operand
    type does.  On Python floats the call raises: ZeroDivisionError, unless
    the cube of c3 already raised OverflowError.  Only on tensors does it
    return, and then an infinity or NaN. *)
Theorem zero_denominator (c2 c3 : float) :
  is_zero (Binary64.denominator c2) = true ->
  gamma_of (Binary64.PyFloat c2) (Binary64.PyFloat c3)
  = Raise (if is_infinity (libm_pow c3 3) && is_finite c3
           then OverflowError else ZeroDivisionError)
  /\ exists v, gamma_of (Binary64.Tensor c2) (Binary64.Tensor c3)
               = Ok (Binary64.Tensor v)
               /\ is_infinity v || is_nan v = true.
Proof.
  intros Hden. split.
  - by apply calculate_gamma_floats.
  - by apply calculate_gamma_tensors.
Qed.

End CoefficientProperties.

(** calculate_gamma(0.0, 0.5) on Python floats: the denominator is 0.0 and
    the division raises. *)
Lemma zero_denominator_raises :
  @calculate_gamma Binary64.num
    (Binary64.num_arith Binary64.pow_by_mul Binary64.pow_by_mul)
    (Binary64.PyFloat 0) (Binary64.PyFloat 0.5)
  = Raise ZeroDivisionError.
Proof. reflexivity. Qed.

Lemma zero_denominator_at_0 :
  @calculate_gamma Binary64.num
    (Binary64.num_arith Binary64.pow_by_mul Binary64.pow_by_mul)
    (Binary64.PyFloat 0) (Binary64.PyFloat 0.5)
  = Raise (if is_infinity (Binary64.pow_by_mul 0.5 3) && is_finite 0.5
           then OverflowError else ZeroDivisionError)
  /\ exists v,
      @calculate_gamma Binary64.num
        (Binary64.num_arith Binary64.pow_by_mul Binary64.pow_by_mul)
        (Binary64.Tensor 0) (Binary64.Tensor 0.5)
      = Ok (Binary64.Tensor v)
      /\ is_infinity v || is_nan v = true.
Proof.
  apply (zero_denominator Binary64.pow_by_mul Binary64.pow_by_mul 0 0.5).
  reflexivity.
Defined.

(** The documented value: calculate_gamma(0.5, 0.5) = -2.5. *)
Example calculate_gamma_half :
  @calculate_gamma Binary64.num
    (Binary64.num_arith Binary64.pow_by_mul Binary64.pow_by_mul)
    (Binary64.PyFloat 0.5) (Binary64.PyFloat 0.5)
  = Ok (Binary64.PyFloat (-2.5)).
Proof. reflexivity. Qed.

(** ** Order 0, path by path *)

Section OrderZero.
Context {V : Type} `{!Numeric V}.

(** Order 0 with a coefficient c[i-1] that is a float or a tensor and not
    zero, on a key not yet cached: the value is math.exp(float(-h*c)), and
    no phi function is called. *)
Theorem order_zero_shortcut (self : @Phi.t V) (i : Z) (cv : V) :
  Phi.cache self !! (0, i) = None ->
  0 <= i -> getitem (Phi.c self) (i - 1) = Ok cv ->
  eq_zero cv = Ok false -> is_float_or_tensor cv = true ->
  Phi.ret (Phi.__call__ self 0 i)
  = (nh ← neg (Phi.h self); x ← mul nh cv; f ← float_ x; math_exp f)
  /\ Phi.probe (Phi.__call__ self 0 i) = [].
Proof.
  intros Hmiss Hi Hcv Hnz Hty. unfold Phi.__call__. rewrite Hmiss.
  replace (i <? 0) with false by (symmetry; apply Z.ltb_ge; lia).
  rewrite Hcv, Hnz. unfold Phi.call_tail. rewrite Hty.
  change ((0 =? 0) && true) with true. cbn match.
  by destruct (neg (Phi.h self) ≫= _).
Qed.

(** Order 0 in standard precision with a coefficient that is neither a
    float nor a tensor (the int 1 of a negative index, or an int in c), on a
    key not yet cached: [phi] is called with j = 0 and its assertion fails. *)
Theorem order_zero_other_coefficient (self : @Phi.t V) (i : Z) (cv x : V) :
  Phi.phi_f self = Phi.use_phi ->
  Phi.cache self !! (0, i) = None ->
  (i < 0 /\ cv = from_int 1)
  \/ (0 <= i /\ getitem (Phi.c self) (i - 1) = Ok cv /\ eq_zero cv = Ok false) ->
  is_float_or_tensor cv = false ->
  (nh ← neg (Phi.h self); mul nh cv) = Ok x ->
  Phi.__call__ self 0 i = Phi.Outcome (Raise AssertionError) self [(0, x)].
Proof.
  intros Hstd Hmiss Hcv Hty Hx.
  assert (Htail : Phi.call_tail self 0 i cv
                  = Phi.Outcome (Raise AssertionError) self [(0, x)]).
  { unfold Phi.call_tail. rewrite Hty, andb_false_r, Hx, Hstd.
    cbn [Phi.call]. by rewrite phi_requires_positive by lia. }
  unfold Phi.__call__. rewrite Hmiss.
  destruct Hcv as [[Hi ->]|(Hi & Hcv & Hnz)].
  - by replace (i <? 0) with true by (symmetry; apply Z.ltb_lt; lia).
  - replace (i <? 0) with false by (symmetry; apply Z.ltb_ge; lia).
    by rewrite Hcv, Hnz.
Qed.

(** Memoisation is sound: on an evaluator built by the constructor and used
    through evaluate only, a cached value is the value the same call
    returns on an empty cache. *)
Theorem memoisation_sound (self : @Phi.t V) (j i : Z) (v : V) :
  Phi.reachable self -> Phi.cache self !! (j, i) = Some v ->
  Phi.ret (Phi.__call__ (Phi.forget self) j i) = Ok v.
Proof. intros Hreach. by apply reachable_sound. Qed.

End OrderZero.

Lemma order_zero_shortcut_at_1 :
  Phi.ret (Phi.__call__ standard_example 0 1)
  = (nh ← neg (Phi.h standard_example);
     x ← mul nh (PyFloat (1 / 2));
     f ← float_ x;
     math_exp f)
  /\ Phi.probe (Phi.__call__ standard_example 0 1) = [].
Proof.
  apply (order_zero_shortcut standard_example 1 (PyFloat (1 / 2)));
    [reflexivity | lia | reflexivity | | reflexivity].
  cbn. rewrite is0_false by lra. reflexivity.
Defined.

Lemma order_zero_other_coefficient_default :
  Phi.__call__ standard_example 0 (-1)
  = Phi.Outcome (Raise AssertionError) standard_example
      [(0, PyFloat (- (1 / 2) * IZR 1))].
Proof.
  apply (order_zero_other_coefficient standard_example (-1) (PyInt 1));
    [reflexivity | reflexivity | left; split; [lia | reflexivity]
    | reflexivity | reflexivity].
Defined.

Lemma memoisation_sound_after_first_call :
  Phi.ret
    (Phi.__call__
       (Phi.forget (Phi.post (Phi.__call__ standard_example 1 1))) 1 1)
  = Ok (PyFloat (SeriesPhi 1 (- (1 / 2) * (1 / 2)))).
Proof.
  apply memoisation_sound.
  - apply Phi.reachable_call. exact standard_example_reachable.
  - rewrite standard_example_first_call. reflexivity.
Defined.



(** ** Documented values *)

(** gamma_exact(n) = (n-1)! for every n >= 1, so 1, 1, 2, 6, 24 for
    n = 1, ..., 5; below 1 the factorial raises ValueError. *)
Theorem _gamma_values :
  (forall n, (1 <= n -> _gamma n = Ok (Z.of_nat (fact (Z.to_nat (n - 1)))))
             /\ (n < 1 -> _gamma n = Raise ValueError))
  /\ _gamma 1 = Ok 1 /\ _gamma 2 = Ok 1 /\ _gamma 3 = Ok 2 /\ _gamma 4 = Ok 6
  /\ _gamma 5 = Ok 24.
Proof.
  split; [|repeat split; reflexivity].
  intros n. unfold _gamma. split; intros Hn.
  - by rewrite math_factorial_nonneg by lia.
  - by rewrite math_factorial_neg by lia.
Qed.

(** ** The evaluator over its lifetime *)

Section Lifetime.
Context {V : Type} `{!Numeric V}.
Implicit Types (self : @Phi.t V) (j i : Z) (v cv : V).

(** The key a value is stored under plays no part in computing it. *)
Lemma call_tail_any_key self j i i' cv :
  Phi.ret (Phi.call_tail self j i cv) = Phi.ret (Phi.call_tail self j i' cv)
  /\ Phi.probe (Phi.call_tail self j i cv)
     = Phi.probe (Phi.call_tail self j i' cv).
Proof.
  unfold Phi.call_tail. destruct ((j =? 0) && is_float_or_tensor cv).
  - by destruct (neg (Phi.h self) ≫= _).
  - destruct (neg (Phi.h self) ≫= _) as [x|]; [|done].
    by destruct (Phi.call (Phi.phi_f self) j x).
Qed.

Lemma reachable_transparent self j i :
  Phi.reachable self ->
  Phi.ret (Phi.__call__ self j i)
  = Phi.ret (Phi.__call__ (Phi.forget self) j i).
Proof.
  intros Hreach. destruct (Phi.cache self !! (j, i)) as [v|] eqn:Hhit.
  - rewrite (call_hit _ _ _ _ Hhit). cbn.
    symmetry. by apply (reachable_sound self Hreach).
  - by destruct (call_miss self j i Hhit).
Qed.

Lemma call_keeps self j i :
  Phi.forget (Phi.post (Phi.__call__ self j i)) = Phi.forget self
  /\ (forall key v, Phi.cache self !! key = Some v ->
        Phi.cache (Phi.post (Phi.__call__ self j i)) !! key = Some v).
Proof.
  destruct (call_cases self j i) as [->|(w & _ & Hmiss & ->)]; [done|].
  split; [done|]. intros key v Hkey. cbn.
  rewrite lookup_insert_ne; [done|]. intros <-. congruence.
Qed.

Lemma later_keeps self self' :
  Phi.later self self' ->
  Phi.forget self' = Phi.forget self
  /\ (forall key v, Phi.cache self !! key = Some v ->
        Phi.cache self' !! key = Some v).
Proof.
  induction 1 as [|self' j i _ [IHf IHc]]; [done|].
  destruct (call_keeps self' j i) as [Hf Hc]. split; [congruence|].
  intros key v Hkey. by apply Hc, IHc.
Qed.

Lemma later_reachable self self' :
  Phi.reachable self -> Phi.later self self' -> Phi.reachable self'.
Proof.
  intros Hreach. induction 1; [done|]. by apply Phi.reachable_call.
Qed.

(** Memoisation is transparent: on an evaluator built by the constructor
    and used through evaluate only, a call returns or raises exactly what
    it does on the same evaluator with an empty cache. *)
Theorem memoisation_transparent self j i :
  Phi.reachable self ->
  Phi.ret (Phi.__call__ self j i)
  = Phi.ret (Phi.__call__ (Phi.forget self) j i).
Proof. apply reachable_transparent. Qed.

(** The cache only grows, and nothing else moves: after any number of
    calls h, c and the selected phi function are what they were, and every
    entry the cache had is still there with its value. *)
Theorem cache_grows_only self self' :
  Phi.later self self' ->
  Phi.h self' = Phi.h self /\ Phi.c self' = Phi.c self
  /\ Phi.phi_f self' = Phi.phi_f self
  /\ (forall key v, Phi.cache self !! key = Some v ->
        Phi.cache self' !! key = Some v).
Proof.
  intros Hlater. destruct (later_keeps self self' Hlater) as [Hf Hc].
  repeat split; [..|done].
  - by apply (f_equal Phi.h) in Hf.
  - by apply (f_equal Phi.c) in Hf.
  - by apply (f_equal Phi.phi_f) in Hf.
Qed.

(** What evaluate(j, i) returns or raises does not depend on the calls made
    before it. *)
Theorem history_independent self self' j i :
  Phi.reachable self -> Phi.later self self' ->
  Phi.ret (Phi.__call__ self' j i) = Phi.ret (Phi.__call__ self j i).
Proof.
  intros Hreach Hlater.
  rewrite (reachable_transparent self j i Hreach).
  rewrite (reachable_transparent self' j i (later_reachable _ _ Hreach Hlater)).
  by destruct (later_keeps self self' Hlater) as [-> _].
Qed.

(** Every negative index means the same: coefficient 1. *)
Theorem negative_indices_agree self j i i' :
  Phi.reachable self -> i < 0 -> i' < 0 ->
  Phi.ret (Phi.__call__ self j i) = Phi.ret (Phi.__call__ self j i').
Proof.
  intros Hreach Hi Hi'. rewrite !(reachable_transparent self) by done.
  unfold Phi.__call__. cbn [Phi.forget Phi.cache]. rewrite !lookup_empty.
  replace (i <? 0) with true by (symmetry; apply Z.ltb_lt; lia).
  replace (i' <? 0) with true by (symmetry; apply Z.ltb_lt; lia).
  by destruct (call_tail_any_key (Phi.forget self) j i i' (from_int 1)).
Qed.

(** Index 0 is the last index: when c is not empty, evaluate(j, 0) returns
    or raises what evaluate(j, len(c)) does. *)
Theorem index_zero_is_last self j :
  Phi.reachable self -> Phi.c self <> [] ->
  Phi.ret (Phi.__call__ self j 0)
  = Phi.ret (Phi.__call__ self j (Z.of_nat (length (Phi.c self)))).
Proof.
  intros Hreach Hne. rewrite !(reachable_transparent self) by done.
  destruct (Phi.c self) as [|c0 cs] eqn:Hc using rev_ind; [done|]. clear IHcs.
  set (n := Z.of_nat (length (cs ++ [c0]))).
  assert (Hn : 1 <= n) by (unfold n; rewrite length_app; cbn; lia).
  unfold Phi.__call__. cbn [Phi.forget Phi.cache Phi.c]. rewrite !lookup_empty.
  change (0 <? 0) with false.
  replace (n <? 0) with false by (symmetry; apply Z.ltb_ge; lia).
  cbn match. rewrite Hc. change (0 - 1) with (-1). rewrite getitem_last.
  rewrite (getitem_inside (cs ++ [c0]) (n - 1) c0).
  - destruct (eq_zero c0) as [[|]|]; [done| |done].
    by destruct (call_tail_any_key (Phi.forget self) j 0 n c0).
  - lia.
  - replace (Z.to_nat (n - 1)) with (length cs)
      by (unfold n; rewrite length_app; cbn; lia).
    rewrite lookup_app_r by lia. by rewrite Nat.sub_diag.
Qed.

(** No key with an index outside c is ever cached. *)
Theorem cached_keys_in_range self j i v :
  Phi.reachable self -> Phi.cache self !! (j, i) = Some v ->
  i < 0 \/ (0 <= i <= Z.of_nat (length (Phi.c self)) /\ Phi.c self <> []).
Proof.
  intros Hreach Hhit.
  pose proof (reachable_sound self Hreach j i v Hhit) as Hfresh.
  destruct (Z.lt_ge_cases i 0) as [Hi|Hi]; [by left|right].
  assert (Hin : ~ (Z.of_nat (length (Phi.c self)) < i \/ Phi.c self = [])).
  { intros Hout.
    rewrite (fresh_index_error (Phi.forget self) j i) in Hfresh
      by (done || apply lookup_empty).
    discriminate Hfresh. }
  split; [lia|]. intros Hnil. apply Hin. by right.
Qed.

(** A call delegates at most once: either no phi function is called, or the
    key was not cached, the selected function is called once with order j
    and argument -h*c, where c is the int 1 for a negative index and the
    element c[i-1] otherwise, and its outcome is the outcome of the call. *)
Theorem at_most_one_phi_call self j i :
  Phi.probe (Phi.__call__ self j i) = []
  \/ exists cv x,
       ((i < 0 /\ cv = from_int 1)
        \/ (0 <= i /\ getitem (Phi.c self) (i - 1) = Ok cv))
       /\ Phi.probe (Phi.__call__ self j i) = [(j, x)]
       /\ Phi.cache self !! (j, i) = None
       /\ (nh ← neg (Phi.h self); mul nh cv) = Ok x
       /\ Phi.ret (Phi.__call__ self j i) = Phi.call (Phi.phi_f self) j x.
Proof.
  assert (Htail : forall cv,
    Phi.probe (Phi.call_tail self j i cv) = []
    \/ exists x,
         Phi.probe (Phi.call_tail self j i cv) = [(j, x)]
         /\ (nh ← neg (Phi.h self); mul nh cv) = Ok x
         /\ Phi.ret (Phi.call_tail self j i cv)
            = Phi.call (Phi.phi_f self) j x).
  { intros cv. unfold Phi.call_tail.
    destruct ((j =? 0) && is_float_or_tensor cv).
    - left. by destruct (neg (Phi.h self) ≫= _).
    - destruct (neg (Phi.h self) ≫= _) as [x|] eqn:Hx; [|by left].
      right. exists x.
      by destruct (Phi.call (Phi.phi_f self) j x). }
  unfold Phi.__call__.
  destruct (Phi.cache self !! (j, i)) eqn:Hmiss; [by left|].
  destruct (i <? 0) eqn:Hi.
  - apply Z.ltb_lt in Hi.
    destruct (Htail (from_int 1)) as [Hp|(x & Hp & Hx & Hr)]; [by left|].
    right. exists (from_int 1), x. repeat split; try done. by left.
  - apply Z.ltb_ge in Hi.
    destruct (getitem (Phi.c self) (i - 1)) as [cv|] eqn:Hcv; [|by left].
    destruct (eq_zero cv) as [[|]|]; [by left | | by left].
    destruct (Htail cv) as [Hp|(x & Hp & Hx & Hr)]; [by left|].
    right. exists cv, x. repeat split; try done. by right.
Qed.

End Lifetime.

Lemma memoisation_transparent_after_first_call :
  Phi.ret (Phi.__call__ (Phi.post (Phi.__call__ standard_example 1 1)) 1 1)
  = Phi.ret
      (Phi.__call__
         (Phi.forget (Phi.post (Phi.__call__ standard_example 1 1))) 1 1).
Proof.
  apply memoisation_transparent.
  apply Phi.reachable_call. exact standard_example_reachable.
Defined.

Lemma cache_grows_only_after_two_calls :
  Phi.h (Phi.post (Phi.__call__ (Phi.post (Phi.__call__ standard_example 3 2)) 1 1))
  = Phi.h (Phi.post (Phi.__call__ standard_example 3 2))
  /\ Phi.c (Phi.post (Phi.__call__ (Phi.post (Phi.__call__ standard_example 3 2)) 1 1))
     = Phi.c (Phi.post (Phi.__call__ standard_example 3 2))
  /\ Phi.phi_f (Phi.post (Phi.__call__ (Phi.post (Phi.__call__ standard_example 3 2)) 1 1))
     = Phi.phi_f (Phi.post (Phi.__call__ standard_example 3 2))
  /\ (forall key v,
        Phi.cache (Phi.post (Phi.__call__ standard_example 3 2)) !! key = Some v ->
        Phi.cache
          (Phi.post (Phi.__call__ (Phi.post (Phi.__call__ standard_example 3 2)) 1 1))
          !! key = Some v).
Proof.
  apply cache_grows_only. apply Phi.later_call, Phi.later_now.
Defined.

Lemma history_independent_after_one_call :
  Phi.ret (Phi.__call__ (Phi.post (Phi.__call__ standard_example 3 2)) 1 1)
  = Phi.ret (Phi.__call__ standard_example 1 1).
Proof.
  apply history_independent; [exact standard_example_reachable|].
  apply Phi.later_call, Phi.later_now.
Defined.

Lemma negative_indices_agree_at_7 :
  Phi.ret (Phi.__call__ standard_example 1 (-1))
  = Phi.ret (Phi.__call__ standard_example 1 (-7)).
Proof.
  apply negative_indices_agree; [exact standard_example_reachable | lia | lia].
Defined.

Lemma index_zero_is_last_at_2 :
  Phi.ret (Phi.__call__ standard_example 1 0)
  = Phi.ret
      (Phi.__call__ standard_example 1
         (Z.of_nat (length (Phi.c standard_example)))).
Proof.
  apply index_zero_is_last; [exact standard_example_reachable | discriminate].
Defined.

Lemma cached_keys_in_range_at_2 :
  2 < 0
  \/ (0 <= 2 <= Z.of_nat
                  (length (Phi.c (Phi.post (Phi.__call__ standard_example 3 2))))
      /\ Phi.c (Phi.post (Phi.__call__ standard_example 3 2)) <> []).
Proof.
  apply (cached_keys_in_range _ 3 2 (PyInt 0)); [|reflexivity].
  apply Phi.reachable_call. exact standard_example_reachable.
Defined.

(** ** The constructor *)

Lemma mapM_Ok {A B : Type} (f : A -> result B) (l : list A) (l' : list B) :
  mapM f l = Ok l' -> Forall2 (fun x y => f x = Ok y) l l'.
Proof.
  revert l'. induction l as [|x l IH]; intros l'; cbn.
  - intros [= <-]. constructor.
  - destruct (f x) as [y|] eqn:Hy; cbn; [|done].
    destruct (mapM f l) as [k|] eqn:Hk; cbn; [|done].
    intros [= <-]. constructor; [done | by apply IH].
Qed.

Section Constructor.
Context {V : Type} `{!Numeric V}.

(** A constructed evaluator starts with an empty cache and one coefficient
    per coefficient given, at the same position.  In standard precision h
    and c are the arguments themselves and [phi] is selected; with
    analytic_solution the step is mpf(float(h)), the k-th coefficient is
    mpf of the k-th argument, and [phi_mpmath_series] is selected. *)
Theorem constructor_keeps_positions (h0 : V) (c0 : list V) (analytic : bool)
    (self : @Phi.t V) :
  Phi.__init__ h0 c0 analytic = Ok self ->
  Phi.cache self = ∅
  /\ length (Phi.c self) = length c0
  /\ (analytic = false ->
        Phi.h self = h0 /\ Phi.c self = c0 /\ Phi.phi_f self = Phi.use_phi)
  /\ (analytic = true ->
        Phi.phi_f self = Phi.use_phi_mpmath_series
        /\ (exists hf, float_ h0 = Ok hf /\ mpf hf = Ok (Phi.h self))
        /\ (forall (k : nat) (x : V), c0 !! k = Some x ->
              exists y, Phi.c self !! k = Some y /\ mpf x = Ok y)).
Proof.
  unfold Phi.__init__. destruct analytic.
  - destruct (float_ h0) as [hf|] eqn:Hhf; cbn; [|done].
    destruct (mpf hf) as [h'|] eqn:Hh'; cbn; [|done].
    destruct (mapM mpf c0) as [c'|] eqn:Hc'; cbn; [|done].
    intros [= <-]. cbn. apply mapM_Ok in Hc'.
    repeat split; try done.
    + symmetry. by eapply Forall2_length.
    + by exists hf.
    + intros k x Hx.
      destruct (Forall2_lookup_l _ _ _ _ _ Hc' Hx) as (y & Hy & Hxy).
      by exists y.
  - intros [= <-]. by cbn.
Qed.

(** With analytic_solution, a coefficient mpf does not accept makes the
    constructor raise: no evaluator is built. *)
Theorem constructor_rejects (h0 : V) (c0 : list V) (x : V) (e : exn) :
  x ∈ c0 -> mpf x = Raise e ->
  exists e', Phi.__init__ h0 c0 true = Raise e'.
Proof.
  intros Hx He. unfold Phi.__init__.
  destruct (float_ h0) as [hf|]; cbn; [|by eexists].
  destruct (mpf hf) as [h'|]; cbn; [|by eexists].
  destruct (mapM mpf c0) as [c'|] eqn:Hc'; cbn; [|by eexists].
  apply mapM_Ok in Hc'. apply list_elem_of_lookup in Hx as [k Hk].
  destruct (Forall2_lookup_l _ _ _ _ _ Hc' Hk) as (y & _ & Hy). congruence.
Qed.

End Constructor.

Lemma constructor_keeps_positions_extended :
  Phi.cache extended_example = ∅
  /\ length (Phi.c extended_example) = length [PyFloat (1 / 2); PyInt 0]
  /\ (true = false ->
        Phi.h extended_example = PyFloat (1 / 2)
        /\ Phi.c extended_example = [PyFloat (1 / 2); PyInt 0]
        /\ Phi.phi_f extended_example = Phi.use_phi)
  /\ (true = true ->
        Phi.phi_f extended_example = Phi.use_phi_mpmath_series
        /\ (exists hf, float_ (PyFloat (1 / 2)) = Ok hf
                       /\ mpf hf = Ok (Phi.h extended_example))
        /\ (forall (k : nat) (x : pynum),
              [PyFloat (1 / 2); PyInt 0] !! k = Some x ->
              exists y, Phi.c extended_example !! k = Some y /\ mpf x = Ok y)).
Proof.
  apply (constructor_keeps_positions (PyFloat (1 / 2))
           [PyFloat (1 / 2); PyInt 0] true extended_example).
  reflexivity.
Defined.

(** Phi(0.5, [0.5, tensor], analytic_solution=True): mpf takes no tensor. *)
Lemma constructor_rejects_tensor :
  exists e',
    Phi.__init__ (PyFloat (1 / 2)) [PyFloat (1 / 2); Tensor 1] true = Raise e'.
Proof.
  apply (constructor_rejects (PyFloat (1 / 2)) _ (Tensor 1) TypeError);
    [|reflexivity].
  apply list_elem_of_lookup. by exists 1%nat.
Defined.

(** ** The formulas on floats within the binary64 range *)

Section FloatRange.
Import Ranged.

(** The largest float as an integer, and the range test. *)

Lemma max_float_Z : max_float = IZR (2 ^ 1024 - 2 ^ 971).
Proof.
  unfold max_float. rewrite minus_IZR.
  change (2 ^ 1024) with (2 ^ Z.of_nat 1024).
  change (2 ^ 971) with (2 ^ Z.of_nat 971).
  rewrite <- !pow_IZR.
  replace (2 ^ 1024)%R with (2 * (2 ^ 52 * 2 ^ 971))%R
    by (rewrite <- pow_add; change (52 + 971)%nat with 1023%nat;
        by rewrite <- tech_pow_Rmult).
  replace (2 ^ 1023)%R with (2 ^ 52 * 2 ^ 971)%R
    by (rewrite <- pow_add; reflexivity).
  assert (2 ^ 52 <> 0)%R by (apply pow_nonzero; lra).
  by field.
Qed.

Lemma in_range_true (x : R) : (Rabs x <= max_float)%R -> in_range x = true.
Proof.
  intros Hx. unfold in_range. by destruct (Rle_dec (Rabs x) max_float).
Qed.

Lemma in_range_false (x : R) : (max_float < Rabs x)%R -> in_range x = false.
Proof.
  intros Hx. unfold in_range.
  destruct (Rle_dec (Rabs x) max_float); [lra|done].
Qed.

Lemma in_range_int (n : Z) :
  in_range (IZR n) = (Z.abs n <=? 2 ^ 1024 - 2 ^ 971).
Proof.
  destruct (Z.leb_spec (Z.abs n) (2 ^ 1024 - 2 ^ 971)) as [Hle|Hlt].
  - apply in_range_true. rewrite <- abs_IZR, max_float_Z. by apply IZR_le.
  - apply in_range_false. rewrite <- abs_IZR, max_float_Z. by apply IZR_lt.
Qed.

Lemma in_range_0 : in_range 0 = true.
Proof. change 0%R with (IZR 0). by rewrite in_range_int. Qed.

Lemma in_range_1 : in_range 1 = true.
Proof. change 1%R with (IZR 1). by rewrite in_range_int. Qed.

Lemma int_to_float_fits (n : Z) :
  Z.abs n <= 2 ^ 1023 -> int_to_float n = Ok (Fin (IZR n)).
Proof.
  intros Hn. unfold int_to_float. rewrite in_range_int.
  replace (Z.abs n <=? 2 ^ 1024 - 2 ^ 971) with true; [done|].
  symmetry. apply Z.leb_le.
  assert (2 ^ 1023 <= 2 ^ 1024 - 2 ^ 971) by (by vm_compute). lia.
Qed.

Lemma int_to_float_small (n : Z) :
  Z.abs n <= 172 -> int_to_float n = Ok (Fin (IZR n)).
Proof.
  intros Hn. apply int_to_float_fits.
  assert (172 <= 2 ^ 1023) by (by vm_compute). lia.
Qed.

Lemma is_zero_false (x : R) : x <> 0%R -> is_zero x = false.
Proof. intros Hx. unfold is_zero. by destruct (Req_dec_T x 0). Qed.

Lemma is_zero_true (x : R) : x = 0%R -> is_zero x = true.
Proof. intros ->. unfold is_zero. destruct (Req_dec_T 0 0); [done|lra]. Qed.

Lemma exp_mult_nat (y : R) (n : nat) : exp (INR n * y) = (exp y ^ n)%R.
Proof.
  induction n as [|n IH].
  - cbn. rewrite Rmult_0_l. apply exp_0.
  - rewrite S_INR, Rmult_plus_distr_r, Rmult_1_l, exp_plus, IH. simpl. ring.
Qed.

(** e^x <= 3^600 <= 2^960 for |x| <= 600. *)
Lemma exp_bound (x : R) : (Rabs x <= 600)%R -> (exp x <= IZR (2 ^ 960))%R.
Proof.
  intros Hx. pose proof (Rle_abs x) as Habs.
  assert (Hle : (exp x <= exp (INR 600 * 1))%R).
  { destruct (Req_dec x (INR 600 * 1)) as [->|Hne]; [lra|].
    left. apply exp_increasing.
    replace (INR 600) with 600%R in * by (rewrite INR_IZR_INZ; done). lra. }
  rewrite exp_mult_nat in Hle.
  assert (H3 : (exp 1 ^ 600 <= 3 ^ 600)%R).
  { apply pow_incr. split; [left; apply exp_pos | apply exp_le_3]. }
  assert (Hb : (3 ^ 600 <= IZR (2 ^ 960))%R).
  { rewrite pow_IZR. apply IZR_le. by vm_compute. }
  lra.
Qed.

(** e^x >= (5/4)^(4*800) > 2^1024 for x >= 800. *)
Lemma exp_overflows (x : R) : (800 <= x)%R -> (max_float < exp x)%R.
Proof.
  intros Hx.
  assert (Hle : (exp (INR 3200 * (1 / 4)) <= exp x)%R).
  { replace (INR 3200) with 3200%R by (rewrite INR_IZR_INZ; done).
    destruct (Req_dec (3200 * (1 / 4)) x) as [->|Hne]; [lra|].
    left. apply exp_increasing. lra. }
  rewrite exp_mult_nat in Hle.
  pose proof (exp_ineq1 (1 / 4)) as H4.
  assert (H5 : (5 ^ 3200 <= (4 * exp (1 / 4)) ^ 3200)%R)
    by (apply pow_incr; lra).
  rewrite Rpow_mult_distr in H5.
  assert (Hz : (4 ^ 3200 * IZR (2 ^ 1024) < 5 ^ 3200)%R).
  { rewrite !pow_IZR, <- mult_IZR. apply IZR_lt. by vm_compute. }
  assert (H0 : (0 < 4 ^ 3200)%R) by (apply pow_lt; lra).
  assert (Hm : (max_float <= IZR (2 ^ 1024))%R)
    by (rewrite max_float_Z; apply IZR_le; by vm_compute).
  nra.
Qed.

Lemma max_float_room : (2 ^ 40 * IZR (2 ^ 960) <= max_float)%R.
Proof.
  rewrite max_float_Z, pow_IZR, <- mult_IZR. apply IZR_le. by vm_compute.
Qed.

Lemma Rabs_mult_le (a b A B : R) :
  (Rabs a <= A)%R -> (Rabs b <= B)%R -> (Rabs (a * b) <= A * B)%R.
Proof.
  intros Ha Hb. rewrite Rabs_mult.
  apply Rmult_le_compat; (done || apply Rabs_pos).
Qed.

Lemma Rabs_plus_le (a b A B : R) :
  (Rabs a <= A)%R -> (Rabs b <= B)%R -> (Rabs (a + b) <= A + B)%R.
Proof. intros Ha Hb. pose proof (Rabs_triang a b). lra. Qed.

Lemma Rabs_minus_le (a b A B : R) :
  (Rabs a <= A)%R -> (Rabs b <= B)%R -> (Rabs (a - b) <= A + B)%R.
Proof.
  intros Ha Hb. unfold Rminus. apply Rabs_plus_le; [done|by rewrite Rabs_Ropp].
Qed.

Lemma Rabs_opp_le (a A : R) : (Rabs a <= A)%R -> (Rabs (- a) <= A)%R.
Proof. by rewrite Rabs_Ropp. Qed.

Lemma Rabs_div_le (a c A : R) :
  (Rabs a <= A)%R -> (1 <= c)%R -> (Rabs (a / c) <= A)%R.
Proof.
  intros Ha Hc. unfold Rdiv.
  rewrite Rabs_mult, Rabs_inv, (Rabs_pos_eq c) by lra.
  pose proof (Rabs_pos a).
  assert (0 < / c <= 1)%R.
  { split; [apply Rinv_0_lt_compat; lra|].
    rewrite <- Rinv_1. apply Rinv_le_contravar; lra. }
  nra.
Qed.

Lemma Rabs_1_le : (Rabs 1 <= 1)%R.
Proof. rewrite Rabs_R1. lra. Qed.

Lemma Rabs_0_le : (Rabs 0 <= 0)%R.
Proof. rewrite Rabs_R0. lra. Qed.

Lemma Rabs_2_le : (Rabs 2 <= 2)%R.
Proof. rewrite Rabs_pos_eq; lra. Qed.

(** A bound of |e| from the bounds of the variables of e. *)
Ltac bound :=
  lazymatch goal with
  | |- (Rabs (?a + ?b) <= _)%R => eapply Rabs_plus_le; bound
  | |- (Rabs (?a - ?b) <= _)%R => eapply Rabs_minus_le; bound
  | |- (Rabs (- ?a) <= _)%R => eapply Rabs_opp_le; bound
  | |- (Rabs (?a * ?b) <= _)%R => eapply Rabs_mult_le; bound
  | |- (Rabs (?a / ?c) <= _)%R => eapply Rabs_div_le; [bound | lra]
  | |- (Rabs 0 <= _)%R => exact Rabs_0_le
  | |- (Rabs 1 <= _)%R => exact Rabs_1_le
  | |- (Rabs 2 <= _)%R => exact Rabs_2_le
  | |- _ => eassumption
  end.

(** |e| is at most the largest float. *)
Ltac fits := eapply Rle_trans; [bound | lra].

(** Runs the operations of a path one after the other, as long as each
    result is within the range and each divisor is not zero. *)
Ltac in_range_steps Hp1' Hp2' Hn1 Hn2 Hn3 :=
  repeat first
    [ progress unfold float_pow, int_to_float, overflow
    | progress rewrite ?Rdiv_1_r, ?Rplus_0_l, ?Rmult_1_l, ?Rmult_1_r,
        ?andb_false_r, ?Hp1', ?Hp2', ?Hn1, ?Hn2, ?Hn3
    | match goal with
      | |- context [in_range (IZR ?n)] =>
          rewrite (in_range_true (IZR n))
            by (rewrite max_float_Z, <- abs_IZR; apply IZR_le; by vm_compute)
      | |- context [in_range ?x] => rewrite (in_range_true x) by fits
      | |- context [is_zero ?x] => rewrite (is_zero_false x) by lra
      end
    | progress cbn -[in_range exp powerRZ is_zero] ].

(** The quantities on the path of [phi] at an argument x with
    lo <= |x| <= 600: e^x, e^-x and 1/x, with their bounds. *)
Ltac range_setup x Hlo Hhi B :=
  assert (Hnz : x <> 0%R) by (intros ->; rewrite Rabs_R0 in Hlo; lra);
  pose proof max_float_room as Hroom;
  assert (Hmax : (2 ^ 40 = 1099511627776)%R) by (simpl; lra);
  rewrite Hmax in Hroom;
  assert (HM : (1 <= IZR (2 ^ 960))%R) by (apply IZR_le; by vm_compute);
  pose proof (exp_bound x Hhi) as He1;
  pose proof (exp_bound (- x)) as He2; rewrite Rabs_Ropp in He2;
  specialize (He2 Hhi);
  pose proof (exp_pos x) as Hp1; pose proof (exp_pos (- x)) as Hp2;
  assert (Hee : (exp x * exp (- x) = 1)%R)
    by (rewrite <- exp_plus, Rplus_opp_r; apply exp_0);
  assert (HaP : (Rabs (/ x) <= B)%R)
    by (rewrite Rabs_inv; replace B with (/ / B)%R by lra;
        apply Rinv_le_contravar; lra);
  assert (Hp1' : powerRZ x 1 = x) by (apply powerRZ_1);
  assert (Hp2' : powerRZ x 2 = (x * x)%R)
    by (change (powerRZ x 2) with (x * (x * 1))%R; by rewrite Rmult_1_r);
  assert (Hn1 : powerRZ x (-1) = (/ x)%R)
    by (change (powerRZ x (-1)) with (/ (x * 1))%R; by rewrite Rmult_1_r);
  assert (Hn2 : powerRZ x (-2) = (/ x * / x)%R)
    by (change (powerRZ x (-2)) with (/ (x * (x * 1)))%R;
        by rewrite Rmult_1_r, Rinv_mult);
  assert (Hn3 : powerRZ x (-3) = (/ x * / x * / x)%R)
    by (change (powerRZ x (-3)) with (/ (x * (x * (x * 1))))%R;
        by rewrite Rmult_1_r, !Rinv_mult, Rmult_assoc);
  set (M := IZR (2 ^ 960)) in *;
  assert (HaE : (Rabs (exp x) <= M)%R) by (rewrite Rabs_pos_eq; lra);
  assert (HaE' : (Rabs (exp (- x)) <= M)%R) by (rewrite Rabs_pos_eq; lra).

(** The entry of [phi]: the factorial g of [_gamma] and the indices l of
    the loop. *)
Ltac range_start g l :=
  unfold phi, _incomplete_gamma;
  match goal with
  | |- context [_gamma ?j] => change (_gamma j) with (@Ok Z g)
  end;
  match goal with |- context [range ?j] => change (range j) with l end;
  cbn -[in_range exp powerRZ is_zero Z.opp];
  change (Z.of_nat (fact (Z.to_nat 0))) with 1%Z;
  try change (Z.of_nat (fact (Z.to_nat 1))) with 1%Z;
  try change (Z.of_nat (fact (Z.to_nat 2))) with 2%Z.

(** The value reached, against the remainder form. *)
Ltac range_finish l :=
  do 3 f_equal; unfold RemainderPhi;
  match goal with |- context [range ?j] => change (range j) with l end;
  unfold taylor, term; cbn [fold_right];
  change (Z.of_nat (fact (Z.to_nat 0))) with 1%Z;
  try change (Z.of_nat (fact (Z.to_nat 1))) with 1%Z;
  try change (Z.of_nat (fact (Z.to_nat 2))) with 2%Z.

Lemma phi_1_in_range (x : R) :
  (/ 1024 <= Rabs x <= 600)%R ->
  phi 1 (RFloat (Fin x)) = Ok (RFloat (Fin (RemainderPhi 1 x))).
Proof.
  intros [Hlo Hhi]. range_setup x Hlo Hhi 1024%R.
  range_start 1 [0]. change (- (1)) with (-1).
  in_range_steps Hp1' Hp2' Hn1 Hn2 Hn3.
  replace (exp x * / x * (1 + - exp (- x)))%R
    with (/ x * (exp x - exp x * exp (- x)))%R by ring.
  rewrite Hee, in_range_true by fits.
  range_finish [0]. rewrite Hp1'. change (powerRZ x 0) with 1%R. by field.
Qed.

Lemma phi_2_in_range (x : R) :
  (/ 16 <= Rabs x <= 600)%R ->
  phi 2 (RFloat (Fin x)) = Ok (RFloat (Fin (RemainderPhi 2 x))).
Proof.
  intros [Hlo Hhi]. range_setup x Hlo Hhi 16%R.
  range_start 1 [0; 1]. change (- (2)) with (-2).
  in_range_steps Hp1' Hp2' Hn1 Hn2 Hn3.
  replace (exp x * (/ x * / x) * (1 + - ((1 + x) * exp (- x))))%R
    with (/ x * / x * (exp x - (1 + x) * (exp x * exp (- x))))%R by ring.
  rewrite Hee, Rmult_1_r, in_range_true by fits.
  range_finish [0; 1]. rewrite Hp1', Hp2'. change (powerRZ x 0) with 1%R.
  by field.
Qed.

Lemma phi_3_in_range (x : R) :
  (/ 16 <= Rabs x <= 600)%R ->
  phi 3 (RFloat (Fin x)) = Ok (RFloat (Fin (RemainderPhi 3 x))).
Proof.
  intros [Hlo Hhi]. range_setup x Hlo Hhi 16%R.
  range_start 2 [0; 1; 2]. change (- (3)) with (-3).
  in_range_steps Hp1' Hp2' Hn1 Hn2 Hn3.
  replace (exp x * (/ x * / x * / x)
           * (1 + - ((1 + x + x * x / 2) * exp (- x) * 2 / 2)))%R
    with (/ x * / x * / x
          * (exp x - (1 + x + x * x / 2) * (exp x * exp (- x))))%R
    by (by field).
  rewrite Hee, Rmult_1_r, in_range_true by fits.
  range_finish [0; 1; 2].
  change (powerRZ x 3) with (x * (x * (x * 1)))%R.
  rewrite Hp1', Hp2'. change (powerRZ x 0) with 1%R. by field.
Qed.

(** One turn of the summation loop of [_incomplete_gamma] on a finite
    float: it goes on, or raises OverflowError. *)
Lemma sum_step_outcome (a : R) (s : rnum) (k : Z) :
  0 <= k ->
  (exists s', (numerator ← pow (RFloat (Fin a)) k;
               denom ← math_factorial k;
               quotient ← truediv numerator (from_int denom);
               add s quotient) = Ok s')
  \/ (numerator ← pow (RFloat (Fin a)) k;
      denom ← math_factorial k;
      quotient ← truediv numerator (from_int denom);
      add s quotient) = Raise OverflowError.
Proof.
  intros Hk. rewrite (math_factorial_nonneg k Hk).
  cbn -[in_range is_zero powerRZ]. unfold float_pow.
  replace (k <? 0) with false by (symmetry; apply Z.ltb_ge; lia).
  rewrite andb_false_r.
  assert (Hq : forall y : xfloat,
    (exists s', (quotient ← div (RFloat y)
                               (RInt (Z.of_nat (fact (Z.to_nat k))));
                 binop Z.add xadd s quotient) = Ok s')
    \/ (quotient ← div (RFloat y) (RInt (Z.of_nat (fact (Z.to_nat k))));
        binop Z.add xadd s quotient) = Raise OverflowError).
  { intros y. cbn -[in_range is_zero]. unfold int_to_float.
    destruct (in_range (IZR (Z.of_nat (fact (Z.to_nat k))))); [|by right].
    cbn -[in_range is_zero]. rewrite is_zero_false by apply fact_nonzero.
    cbn -[in_range is_zero]. destruct s as [n|z]; cbn -[in_range is_zero].
    - unfold int_to_float. destruct (in_range (IZR n)); [|by right].
      left. by eexists.
    - left. by eexists. }
  assert (Hc : int_to_float k = Ok (Fin (IZR k))
               \/ int_to_float k = Raise OverflowError)
    by (unfold int_to_float; destruct (in_range (IZR k)); auto).
  destruct Hc as [-> | ->]; [|by right]. cbn [mbind result_bind].
  destruct (k =? 0); [apply Hq|].
  destruct (in_range (powerRZ a k)); [apply Hq | by right].
Qed.

Lemma sum_loop_outcome (a : R) (l : list Z) (s : rnum) :
  Forall (fun k => 0 <= k) l ->
  (exists s', for_in l (fun sum_ k =>
                 numerator ← pow (RFloat (Fin a)) k;
                 denom ← math_factorial k;
                 quotient ← truediv numerator (from_int denom);
                 add sum_ quotient) s = Ok s')
  \/ for_in l (fun sum_ k =>
        numerator ← pow (RFloat (Fin a)) k;
        denom ← math_factorial k;
        quotient ← truediv numerator (from_int denom);
        add sum_ quotient) s = Raise OverflowError.
Proof.
  intros Hl. revert s. induction Hl as [|k l Hk _ IH]; intros s.
  - left. by eexists.
  - cbn [for_in].
    destruct (sum_step_outcome a s k Hk) as [[s' ->]| ->]; [|by right].
    apply IH.
Qed.

(** From x = -800 down, e^(-x) is beyond the range: [phi] raises
    OverflowError at every order j >= 1, in the loop or at math.exp(-x). *)
Lemma phi_overflows (j : Z) (x : R) :
  1 <= j -> (x <= - 800)%R -> phi j (RFloat (Fin x)) = Raise OverflowError.
Proof.
  intros Hj Hx. unfold phi.
  replace (j >? 0) with true by (symmetry; apply Z.gtb_lt; lia).
  unfold _gamma. rewrite math_factorial_nonneg by lia.
  cbn [mbind result_bind]. unfold _incomplete_gamma. cbn [mbind result_bind].
  destruct (sum_loop_outcome x (range j) (from_int 0) (range_Forall_nonneg j))
    as [[s' ->]| ->]; [|done].
  cbn -[in_range exp]. rewrite (in_range_false (exp (- x))); [reflexivity|].
  rewrite Rabs_pos_eq by (left; apply exp_pos). apply exp_overflows. lra.
Qed.

(** Below order 1 with gamma_s given: 0 * e^(-x) * gamma_s. *)
Lemma _incomplete_gamma_given_in_range (s g : Z) (x : R) :
  s < 1 -> (- 600 <= x)%R -> Z.abs g <= 2 ^ 1023 ->
  _incomplete_gamma s (RFloat (Fin x)) (Some g) = Ok (RFloat (Fin 0)).
Proof.
  intros Hs Hx Hg. rewrite (_incomplete_gamma_given_gamma s g _ Hs).
  assert (He : (Rabs (exp (- x)) <= max_float)%R).
  { rewrite Rabs_pos_eq by (left; apply exp_pos).
    pose proof max_float_room as Hroom.
    assert (Hmax : (2 ^ 40 = 1099511627776)%R) by (simpl; lra).
    rewrite Hmax in Hroom.
    assert (Hle : (exp (- x) <= exp 600)%R).
    { destruct (Req_dec (- x) 600) as [->|Hne]; [lra|].
      left. apply exp_increasing. lra. }
    pose proof (exp_bound 600) as Hb. rewrite Rabs_pos_eq in Hb by lra.
    pose proof (exp_pos 600). specialize (Hb ltac:(lra)). lra. }
  cbn -[in_range exp]. rewrite (in_range_true _ He).
  cbn -[in_range exp]. unfold int_to_float. rewrite in_range_0.
  cbn -[in_range exp]. unfold overflow. rewrite Rmult_0_l, in_range_0.
  cbn -[in_range exp]. unfold int_to_float. rewrite in_range_int.
  assert (Hpow : 2 ^ 1023 <= 2 ^ 1024 - 2 ^ 971) by (by vm_compute).
  replace (Z.abs g <=? 2 ^ 1024 - 2 ^ 971) with true
    by (symmetry; apply Z.leb_le; lia).
  cbn -[in_range exp]. unfold overflow. by rewrite Rmult_0_l, in_range_0.
Qed.

Lemma _incomplete_gamma_given_overflows (s g : Z) (x : R) :
  s < 1 -> (x <= - 800)%R ->
  _incomplete_gamma s (RFloat (Fin x)) (Some g) = Raise OverflowError.
Proof.
  intros Hs Hx. rewrite (_incomplete_gamma_given_gamma s g _ Hs).
  cbn -[in_range exp]. rewrite (in_range_false (exp (- x))); [reflexivity|].
  rewrite Rabs_pos_eq by (left; apply exp_pos). apply exp_overflows. lra.
Qed.

Lemma _incomplete_gamma_given_huge (s g : Z) (x : R) :
  s < 1 -> (- 600 <= x)%R -> 2 ^ 1024 <= Z.abs g ->
  _incomplete_gamma s (RFloat (Fin x)) (Some g) = Raise OverflowError.
Proof.
  intros Hs Hx Hg. rewrite (_incomplete_gamma_given_gamma s g _ Hs).
  assert (He : (Rabs (exp (- x)) <= max_float)%R).
  { rewrite Rabs_pos_eq by (left; apply exp_pos).
    pose proof max_float_room as Hroom.
    assert (Hmax : (2 ^ 40 = 1099511627776)%R) by (simpl; lra).
    rewrite Hmax in Hroom.
    assert (Hle : (exp (- x) <= exp 600)%R).
    { destruct (Req_dec (- x) 600) as [->|Hne]; [lra|].
      left. apply exp_increasing. lra. }
    pose proof (exp_bound 600) as Hb. rewrite Rabs_pos_eq in Hb by lra.
    pose proof (exp_pos 600). specialize (Hb ltac:(lra)). lra. }
  cbn -[in_range exp]. rewrite (in_range_true _ He).
  cbn -[in_range exp]. unfold int_to_float. rewrite in_range_0.
  cbn -[in_range exp]. unfold overflow. rewrite Rmult_0_l, in_range_0.
  cbn -[in_range exp]. unfold int_to_float. rewrite in_range_int.
  assert (Hpow : 2 ^ 1024 - 2 ^ 971 < 2 ^ 1024) by (by vm_compute).
  by replace (Z.abs g <=? 2 ^ 1024 - 2 ^ 971) with false
    by (symmetry; apply Z.leb_gt; lia).
Qed.

(** ** The argument 0.0 *)

Lemma fact_fold (n : nat) :
  Z.of_nat (fact n) = fold_left (fun a k => a * Z.of_nat k) (seq 1 n) 1.
Proof.
  induction n as [|n IH]; [done|].
  rewrite seq_S, fold_left_app. cbn [fold_left]. rewrite <- IH.
  change (fact (S n)) with (S n * fact n)%nat. rewrite Nat2Z.inj_mul.
  change (1 + n)%nat with (S n). ring.
Qed.

(** 170! is a float, 171! is not. *)
Lemma factorial_in_range (k : Z) :
  0 <= k -> in_range (IZR (Z.of_nat (fact (Z.to_nat k)))) = (k <=? 170).
Proof.
  intros Hk. rewrite in_range_int, Z.abs_eq by lia.
  destruct (Z.leb_spec k 170) as [Hle|Hgt].
  - apply Z.leb_le. transitivity (Z.of_nat (fact 170)).
    + apply Nat2Z.inj_le, fact_le. lia.
    + rewrite fact_fold. by vm_compute.
  - apply Z.leb_gt. apply Z.lt_le_trans with (Z.of_nat (fact 171)).
    + rewrite fact_fold. by vm_compute.
    + apply Nat2Z.inj_le, fact_le. lia.
Qed.

Lemma for_in_app {A S : Type} (l1 l2 : list A) (body : S -> A -> result S)
    (s : S) :
  for_in (l1 ++ l2) body s = (s' ← for_in l1 body s; for_in l2 body s').
Proof.
  revert s. induction l1 as [|k l1 IH]; intros s; [done|].
  cbn [app for_in]. destruct (body s k); [apply IH | done].
Qed.

(** A turn k >= 1 of the loop at 0.0 adds 0.0 ** k / k!, which is 0. *)
Lemma zero_sum_step (k : Z) :
  1 <= k <= 170 ->
  (numerator ← pow (RFloat (Fin 0)) k;
   denom ← math_factorial k;
   quotient ← truediv numerator (from_int denom);
   add (RFloat (Fin 1)) quotient) = Ok (RFloat (Fin 1)).
Proof.
  intros Hk. rewrite math_factorial_nonneg by lia.
  assert (Hp : powerRZ 0 k = 0%R).
  { destruct k as [|p|p]; [lia| |lia]. cbn [powerRZ].
    apply pow_i, Pos2Nat.is_pos. }
  cbn -[in_range is_zero powerRZ]. unfold float_pow.
  rewrite (int_to_float_small k) by lia. cbn [mbind result_bind].
  replace (k =? 0) with false by (symmetry; apply Z.eqb_neq; lia).
  replace (k <? 0) with false by (symmetry; apply Z.ltb_ge; lia).
  rewrite andb_false_r, Hp, in_range_0.
  cbn -[in_range is_zero]. unfold int_to_float.
  rewrite factorial_in_range by lia.
  replace (k <=? 170) with true by (symmetry; apply Z.leb_le; lia).
  cbn -[in_range is_zero]. rewrite is_zero_false by apply fact_nonzero.
  cbn -[in_range is_zero]. unfold overflow.
  rewrite Rdiv_0_l, in_range_0. cbn -[in_range is_zero]. unfold overflow.
  by rewrite Rplus_0_r, in_range_1.
Qed.

Lemma zero_sum_loop (j : Z) :
  1 <= j <= 171 ->
  for_in (range j) (fun sum_ k =>
      numerator ← pow (RFloat (Fin 0)) k;
      denom ← math_factorial k;
      quotient ← truediv numerator (from_int denom);
      add sum_ quotient) (from_int 0)
  = Ok (RFloat (Fin 1)).
Proof.
  intros Hj. unfold range. rewrite seqZ_cons by lia. cbn [for_in].
  assert (H0 : (numerator ← pow (RFloat (Fin 0)) 0;
                denom ← math_factorial 0;
                quotient ← truediv numerator (from_int denom);
                add (from_int 0) quotient) = Ok (RFloat (Fin 1))).
  { cbn -[in_range is_zero]. unfold float_pow.
    rewrite (int_to_float_small 0) by lia. cbn -[in_range is_zero].
    unfold int_to_float.
    change (Z.of_nat (fact (Z.to_nat 0))) with 1.
    rewrite in_range_1. cbn -[in_range is_zero].
    rewrite is_zero_false by lra. cbn -[in_range is_zero]. unfold overflow.
    rewrite Rdiv_1_r, in_range_1. cbn -[in_range is_zero].
    by rewrite Rplus_0_l, in_range_1. }
  rewrite H0. cbn [mbind result_bind].
  assert (Hall : Forall (fun k => 1 <= k <= 170) (seqZ (Z.succ 0) (Z.pred j))).
  { apply Forall_forall. intros k. rewrite elem_of_seqZ. lia. }
  induction Hall as [|k l Hk _ IH]; [done|].
  cbn [for_in]. rewrite (zero_sum_step k Hk). apply IH.
Qed.

Lemma zero_sum_overflows (j : Z) :
  172 <= j ->
  for_in (range j) (fun sum_ k =>
      numerator ← pow (RFloat (Fin 0)) k;
      denom ← math_factorial k;
      quotient ← truediv numerator (from_int denom);
      add sum_ quotient) (from_int 0)
  = Raise OverflowError.
Proof.
  intros Hj.
  assert (Hr : range j = range 171 ++ 171 :: seqZ 172 (j - 172)).
  { unfold range. replace j with (171 + (j - 171)) at 1 by lia.
    rewrite seqZ_app by lia. f_equal. rewrite seqZ_cons by lia.
    f_equal. f_equal; lia. }
  rewrite Hr, for_in_app, (zero_sum_loop 171) by lia.
  cbn [mbind result_bind for_in].
  rewrite math_factorial_nonneg by lia.
  cbn -[in_range is_zero powerRZ]. unfold float_pow.
  rewrite (int_to_float_small 171) by lia. cbn [mbind result_bind].
  change (171 =? 0) with false. change (171 <? 0) with false.
  rewrite andb_false_r.
  assert (Hp : powerRZ 0 171 = 0%R)
    by (cbn [powerRZ]; apply pow_i, Pos2Nat.is_pos).
  rewrite Hp, in_range_0. cbn -[in_range is_zero]. unfold int_to_float.
  by rewrite factorial_in_range by lia.
Qed.

(** Gamma(s, 0.0), with gamma_s = (s-1)! given or computed: (s-1)! up to
    s = 171, an OverflowError in the loop from s = 172 on. *)
Lemma _incomplete_gamma_zero (s : Z) (g : option Z) :
  1 <= s -> g = None \/ g = Some (Z.of_nat (fact (Z.to_nat (s - 1)))) ->
  _incomplete_gamma s (RFloat (Fin 0)) g
  = if s <=? 171
    then Ok (RFloat (Fin (IZR (Z.of_nat (fact (Z.to_nat (s - 1)))))))
    else Raise OverflowError.
Proof.
  intros Hs Hg. unfold _incomplete_gamma.
  assert (Hgs : match g with None => _gamma s | Some g' => Ok g' end
                = Ok (Z.of_nat (fact (Z.to_nat (s - 1))))).
  { destruct Hg as [-> | ->]; [|done].
    unfold _gamma. by rewrite math_factorial_nonneg by lia. }
  rewrite Hgs. cbn [mbind result_bind].
  destruct (Z.leb_spec s 171) as [Hle|Hgt].
  - rewrite (zero_sum_loop s) by lia.
    cbn -[in_range is_zero exp]. rewrite Ropp_0, exp_0, in_range_1.
    cbn -[in_range is_zero exp]. unfold overflow.
    rewrite Rmult_1_l, in_range_1.
    cbn -[in_range is_zero exp]. unfold int_to_float.
    rewrite factorial_in_range by lia.
    replace (s - 1 <=? 170) with true by (symmetry; apply Z.leb_le; lia).
    cbn -[in_range is_zero exp]. unfold overflow. rewrite Rmult_1_l.
    rewrite factorial_in_range by lia.
    by replace (s - 1 <=? 170) with true by (symmetry; apply Z.leb_le; lia).
  - by rewrite (zero_sum_overflows s) by lia.
Qed.

Lemma phi_zero (j : Z) :
  1 <= j ->
  phi j (RFloat (Fin 0))
  = Raise (if j <=? 171 then ZeroDivisionError else OverflowError).
Proof.
  intros Hj. unfold phi.
  replace (j >? 0) with true by (symmetry; apply Z.gtb_lt; lia).
  unfold _gamma. rewrite math_factorial_nonneg by lia.
  cbn [mbind result_bind].
  rewrite (_incomplete_gamma_zero j) by (lia || by right).
  destruct (Z.leb_spec j 171) as [Hle|Hgt]; [|done].
  cbn -[in_range is_zero exp]. rewrite exp_0, in_range_1.
  cbn -[in_range is_zero exp]. unfold float_pow.
  rewrite (int_to_float_small (- j)) by lia. cbn [mbind result_bind].
  replace (- j =? 0) with false by (symmetry; apply Z.eqb_neq; lia).
  replace (- j <? 0) with true by (symmetry; apply Z.ltb_lt; lia).
  by rewrite (is_zero_true 0).
Qed.

(** ** The recurrence of the remainder form *)

Lemma range_succ (n : Z) : 0 <= n -> range (n + 1) = range n ++ [n].
Proof.
  intros Hn. unfold range. rewrite seqZ_app by lia. by rewrite Z.add_0_l.
Qed.

Lemma taylor_app (x : R) (l1 l2 : list Z) :
  taylor x (l1 ++ l2) = (taylor x l1 + taylor x l2)%R.
Proof.
  induction l1 as [|k l1 IH]; cbn [app taylor fold_right].
  - by rewrite Rplus_0_l.
  - fold (taylor x (l1 ++ l2)). fold (taylor x l1). rewrite IH. ring.
Qed.

Lemma taylor_succ (x : R) (j : Z) :
  0 <= j -> taylor x (range (j + 1)) = (taylor x (range j) + term x j)%R.
Proof.
  intros Hj. rewrite (range_succ j Hj), taylor_app.
  cbn [taylor fold_right]. by rewrite Rplus_0_r.
Qed.

Lemma RemainderPhi_succ (j : Z) (x : R) :
  0 <= j -> x <> 0%R ->
  RemainderPhi (j + 1) x
  = ((RemainderPhi j x - / IZR (Z.of_nat (fact (Z.to_nat j)))) / x)%R.
Proof.
  intros Hj Hx. unfold RemainderPhi. rewrite (taylor_succ x j Hj).
  rewrite (powerRZ_add x j 1 Hx), powerRZ_1. unfold term.
  pose proof (powerRZ_NOR x j Hx) as Hp.
  pose proof (fact_nonzero (Z.to_nat j)) as Hf.
  by field.
Qed.

(** [phi] at the orders 1, 2, 3. *)
Lemma phi_in_range (j : Z) (x : R) :
  1 <= j <= 3 -> (/ 16 <= Rabs x <= 600)%R ->
  phi j (RFloat (Fin x)) = Ok (RFloat (Fin (RemainderPhi j x))).
Proof.
  intros Hj Hx.
  assert (Hcases : j = 1 \/ j = 2 \/ j = 3) by lia.
  destruct Hcases as [-> | [-> | ->]].
  - apply phi_1_in_range. lra.
  - by apply phi_2_in_range.
  - by apply phi_3_in_range.
Qed.

(** ** The evaluator on floats *)

(** The argument -h*c of the phi function, for a float coefficient c and
    for the int 1 of a negative index. *)
Lemma argument_in_range (hh c : R) (cv : rnum) :
  cv = RFloat (Fin c) \/ (cv = RInt 1 /\ c = 1%R) ->
  (Rabs (hh * c) <= 600)%R ->
  (nh ← neg (RFloat (Fin hh)); mul nh cv) = Ok (RFloat (Fin (- hh * c))).
Proof.
  intros Hcv Hx.
  assert (Hfits : (Rabs (- hh * c) <= max_float)%R).
  { replace (- hh * c)%R with (- (hh * c))%R by ring. rewrite Rabs_Ropp.
    pose proof max_float_room as Hroom.
    assert (Hmax : (2 ^ 40 = 1099511627776)%R) by (simpl; lra).
    assert (HM : (1 <= IZR (2 ^ 960))%R) by (apply IZR_le; by vm_compute).
    rewrite Hmax in Hroom. lra. }
  destruct Hcv as [-> | [-> ->]]; cbn -[in_range].
  - unfold overflow. by rewrite (in_range_true _ Hfits).
  - unfold int_to_float. rewrite in_range_1. cbn -[in_range].
    unfold overflow. by rewrite (in_range_true _ Hfits).
Qed.




(** C5, as the code has it: for 1/1024 <= |h| <= 600, in exact arithmetic
    within the float range, phi(1, -h) is (e^(-h) - 1) / (-h). *)
Theorem phi_1_closed_form (h : R) :
  (/ 1024 <= Rabs h <= 600)%R ->
  phi 1 (RFloat (Fin (- h))) = Ok (RFloat (Fin ((exp (- h) - 1) / (- h)))).
Proof.
  intros Hh. rewrite phi_1_in_range by (by rewrite Rabs_Ropp).
  do 3 f_equal. unfold RemainderPhi. change (range 1) with [0].
  unfold taylor, term. cbn [fold_right].
  change (Z.of_nat (fact (Z.to_nat 0))) with 1.
  rewrite powerRZ_1. change (powerRZ (- h) 0) with 1%R.
  assert (Hnz : h <> 0%R).
  { intros ->. destruct Hh as [Hlo _]. rewrite Rabs_R0 in Hlo. lra. }
  by field.
Qed.

Lemma phi_1_closed_form_at_1 :
  phi 1 (RFloat (Fin (- 1))) = Ok (RFloat (Fin ((exp (- 1) - 1) / (- 1)))).
Proof. apply (phi_1_closed_form 1). rewrite Rabs_R1. lra. Defined.

(** h = 800: phi(1, -800.0) raises OverflowError and returns nothing. *)
Lemma phi_1_overflows :
  phi 1 (RFloat (Fin (- 800))) = Raise OverflowError.
Proof. apply phi_overflows; [lia | lra]. Qed.

(** C9, as the code has it: for s < 1 the incomplete gamma helper raises
    (the ValueError of the factorial) when gamma_s is left out, for every
    argument and every implementation of the numbers.  When gamma_s is
    given nothing looks at s: the sum is empty and the helper computes
    0 * exp(-x) * gamma_s.  On a finite float x that is the float 0 when
    x >= -600 and |gamma_s| <= 2^1023, and an OverflowError when
    x <= -800 (math.exp(-x)) or when gamma_s is an int of 2^1024 or more in
    absolute value (its conversion to a float). *)
Theorem incomplete_gamma_below_1 :
  (forall (V : Type) (N : Numeric V) (s : Z) (x : V),
      s < 1 -> _incomplete_gamma s x None = Raise ValueError)
  /\ (forall (V : Type) (N : Numeric V) (s g : Z) (x : V),
      s < 1 ->
      _incomplete_gamma s x (Some g) = (nx ← neg x;
                                        e ← math_exp nx;
                                        t ← mul (from_int 0) e;
                                        mul t (from_int g)))
  /\ (forall (s g : Z) (x : R),
      s < 1 ->
      ((- 600 <= x)%R -> Z.abs g <= 2 ^ 1023 ->
       _incomplete_gamma s (RFloat (Fin x)) (Some g) = Ok (RFloat (Fin 0)))
      /\ ((x <= - 800)%R ->
          _incomplete_gamma s (RFloat (Fin x)) (Some g) = Raise OverflowError)
      /\ ((- 600 <= x)%R -> 2 ^ 1024 <= Z.abs g ->
          _incomplete_gamma s (RFloat (Fin x)) (Some g)
          = Raise OverflowError)).
Proof.
  split; [|split].
  - intros V N s x Hs. by apply _incomplete_gamma_computes_gamma.
  - intros V N s g x Hs. by apply _incomplete_gamma_given_gamma.
  - intros s g x Hs. split; [|split].
    + by apply _incomplete_gamma_given_in_range.
    + by apply _incomplete_gamma_given_overflows.
    + by apply _incomplete_gamma_given_huge.
Qed.

(** The argument 0 with an order j >= 1: [phi] raises on the float 0.0,
    ZeroDivisionError at 0.0 ** -j up to order 171 and OverflowError from
    order 172 on, where the loop divides by 171!, which is no float;
    [phi_mpmath_series] raises ZeroDivisionError on every argument equal to
    0, at the division by z ** j. *)
Theorem argument_zero_raises (j : Z) (a : pynum) :
  1 <= j -> value a = 0%R ->
  phi j (RFloat (Fin 0))
  = Raise (if j <=? 171 then ZeroDivisionError else OverflowError)
  /\ phi_mpmath_series j a = Raise ZeroDivisionError.
Proof.
  intros Hj Ha. split.
  - by apply phi_zero.
  - unfold phi_mpmath_series.
    cbn [float_ mpf pynum_numeric to_mpf mbind result_bind value from_int
         numeric_arith pynum_arith].
    rewrite (mpf_loop (value a) _ _ (range_Forall_nonneg j)).
    cbn -[Ideal.power Ideal.div].
    rewrite (power_defined (Mpf (value a)) j) by (done || right; lia).
    cbn -[Ideal.div]. unfold Ideal.div. cbn.
    assert (Hp : powerRZ (value a) j = 0%R).
    { rewrite Ha. destruct j as [|p|p]; [lia| |lia]. cbn.
      apply pow_i. apply Pos2Nat.is_pos. }
    by rewrite (is0_true _ Hp).
Qed.

Lemma argument_zero_raises_at_1 :
  phi 1 (RFloat (Fin 0)) = Raise ZeroDivisionError
  /\ phi_mpmath_series 1 (PyInt 0) = Raise ZeroDivisionError.
Proof. apply (argument_zero_raises 1 (PyInt 0)); [lia | reflexivity]. Defined.

(** At x = 0.0 the incomplete gamma helper returns what the gamma helper
    returns: for 1 <= s <= 171, _incomplete_gamma(s, 0.0) is the float of
    _gamma(s) = (s-1)!; from s = 172 on it raises OverflowError, in the loop,
    at the division by 171!. *)
Theorem incomplete_gamma_at_zero (s : Z) :
  1 <= s ->
  exists g : Z,
    _gamma s = Ok g
    /\ _incomplete_gamma s (RFloat (Fin 0)) None
       = if s <=? 171 then Ok (RFloat (Fin (IZR g))) else Raise OverflowError.
Proof.
  intros Hs. exists (Z.of_nat (fact (Z.to_nat (s - 1)))). split.
  - unfold _gamma. by rewrite math_factorial_nonneg by lia.
  - apply _incomplete_gamma_zero; [done | by left].
Qed.

Lemma incomplete_gamma_at_zero_3 :
  exists g : Z,
    _gamma 3 = Ok g
    /\ _incomplete_gamma 3 (RFloat (Fin 0)) None = Ok (RFloat (Fin (IZR g))).
Proof. apply (incomplete_gamma_at_zero 3). lia. Defined.

(** The recurrence of the phi functions, on [phi], in exact arithmetic
    within the float range: for j = 1, 2 and 1/16 <= |x| <= 600,
    phi(j+1, x) = (phi(j, x) - 1/j!) / x. *)
Theorem phi_recurrence (j : Z) (x : R) :
  1 <= j <= 2 -> (/ 16 <= Rabs x <= 600)%R ->
  exists a b,
    phi j (RFloat (Fin x)) = Ok (RFloat (Fin a))
    /\ phi (j + 1) (RFloat (Fin x)) = Ok (RFloat (Fin b))
    /\ b = ((a - / IZR (Z.of_nat (fact (Z.to_nat j)))) / x)%R.
Proof.
  intros Hj Hx. exists (RemainderPhi j x), (RemainderPhi (j + 1) x).
  rewrite !phi_in_range by (done || lia). repeat split.
  apply RemainderPhi_succ; [lia|].
  intros ->. destruct Hx as [Hlo _]. rewrite Rabs_R0 in Hlo. lra.
Qed.

Lemma phi_recurrence_at_1 :
  exists a b,
    phi 1 (RFloat (Fin 2)) = Ok (RFloat (Fin a))
    /\ phi (1 + 1) (RFloat (Fin 2)) = Ok (RFloat (Fin b))
    /\ b = ((a - / IZR (Z.of_nat (fact (Z.to_nat 1)))) / 2)%R.
Proof.
  apply (phi_recurrence 1 2); [lia | rewrite Rabs_pos_eq; lra].
Defined.

(** End to end in standard precision, on floats: on an evaluator built by
    the constructor whose step h is a finite float, for an order j in 1..3,
    for a negative index (coefficient 1) and for an index whose coefficient
    is a finite float c, if 1/16 <= |h*c| <= 600 then evaluate(j, i) returns
    phi_j(-h*c), the remainder form (e^x - sum_{k<j} x^k/k!) / x^j at
    x = -h*c (exact arithmetic within the float range), whatever was called
    before. *)
Theorem standard_evaluate_is_phi (self : @Phi.t rnum) (j i : Z) (hh c : R)
    (cv : rnum) :
  Phi.reachable self ->
  Phi.phi_f self = Phi.use_phi -> Phi.h self = RFloat (Fin hh) ->
  1 <= j <= 3 ->
  (i < 0 /\ cv = RInt 1 /\ c = 1%R)
  \/ (0 <= i /\ getitem (Phi.c self) (i - 1) = Ok cv /\ cv = RFloat (Fin c)) ->
  (/ 16 <= Rabs (hh * c) <= 600)%R ->
  Phi.ret (Phi.__call__ self j i)
  = Ok (RFloat (Fin (RemainderPhi j (- hh * c)))).
Proof.
  intros Hreach Hstd Hh Hj Hcv Hx.
  rewrite (reachable_transparent self j i Hreach).
  assert (Hc : c <> 0%R).
  { intros ->. destruct Hx as [Hlo _]. rewrite Rmult_0_r, Rabs_R0 in Hlo. lra. }
  assert (Htail : Phi.ret (Phi.__call__ (Phi.forget self) j i)
                  = Phi.ret (Phi.call_tail (Phi.forget self) j i cv)).
  { unfold Phi.__call__. cbn [Phi.forget Phi.cache Phi.c].
    rewrite lookup_empty. destruct Hcv as [(Hi & -> & _)|(Hi & Hget & ->)].
    - by replace (i <? 0) with true by (symmetry; apply Z.ltb_lt; lia).
    - replace (i <? 0) with false by (symmetry; apply Z.ltb_ge; lia).
      rewrite Hget. cbn -[is_zero]. by rewrite (is_zero_false c Hc). }
  rewrite Htail. unfold Phi.call_tail. cbn [Phi.forget Phi.h Phi.phi_f].
  rewrite Hh, Hstd.
  replace (j =? 0) with false by (symmetry; apply Z.eqb_neq; lia).
  cbn [andb].
  rewrite (argument_in_range hh c cv)
    by (lra || destruct Hcv as [(_ & ? & ?)|(_ & _ & ?)]; auto).
  cbn [Phi.call].
  rewrite phi_in_range; [done | done |].
  replace (- hh * c)%R with (- (hh * c))%R by ring. by rewrite Rabs_Ropp.
Qed.

Lemma standard_evaluate_is_phi_at_1 :
  Phi.ret
    (Phi.__call__
       {| Phi.h := RFloat (Fin 1); Phi.c := [RFloat (Fin (1 / 2)); RInt 0];
          Phi.cache := ∅; Phi.phi_f := Phi.use_phi |} 2 1)
  = Ok (RFloat (Fin (RemainderPhi 2 (- 1 * (1 / 2))))).
Proof.
  apply (standard_evaluate_is_phi _ 2 1 1 (1 / 2) (RFloat (Fin (1 / 2)))).
  - by apply (Phi.reachable_init (RFloat (Fin 1))
                [RFloat (Fin (1 / 2)); RInt 0] false).
  - reflexivity.
  - reflexivity.
  - lia.
  - right. split; [lia | split; reflexivity].
  - rewrite Rabs_pos_eq; lra.
Defined.

End FloatRange.
